(** * virtualenvapi.pip: the [PipWrapper] class

    A shallow embedding of [src/virtualenvapi/pip.py] (Python 3 semantics, on
    a POSIX system: [os.sep = '/'], [os.linesep = '\n']).  Python [str] values
    are sequences of Unicode code points, [bytes] values sequences of bytes.
    The operating system (file system, process environment, process
    spawning, the diagnostic channel written by [print]) and the one list
    object bound to [PipWrapper.global_pip_args] live in an explicit
    [World] that every method threads through. *)

From Stdlib Require Import Strings.String Strings.Ascii Strings.Byte.
From stdpp Require Import gmap list relations.

Open Scope Z_scope.

(** ** Text and bytes *)

(** A Python 3 [str]: a sequence of code points. *)
Definition text := list N.
(** A Python 3 [bytes]. *)
Definition bytes := list Byte.byte.

(** [six.u(literal)] on Python 3 is the literal itself; here it also serves
    to write every ASCII literal of the source as a [text]. *)
Definition u (s : string) : text :=
  List.map N_of_ascii (list_ascii_of_string s).

(** [str.isspace] for one code point (CPython's [_PyUnicode_IsWhitespace]). *)
Definition isspace (c : N) : bool :=
  (((9 <=? c) && (c <=? 13)) || ((28 <=? c) && (c <=? 32))
   || (c =? 133) || (c =? 160) || (c =? 5760)
   || ((8192 <=? c) && (c <=? 8202))
   || (c =? 8232) || (c =? 8233) || (c =? 8239) || (c =? 8287)
   || (c =? 12288))%N.

(** [Py_ISSPACE] for one byte: the six ASCII white-space characters. *)
Definition byte_isspace (b : Byte.byte) : bool :=
  let n := Byte.to_N b in
  (((9 <=? n) && (n <=? 13)) || (n =? 32))%N.

Section Strip.
Context {A : Type} (space : A → bool).

Fixpoint lstrip (s : list A) : list A :=
  match s with
  | c :: s' => if space c then lstrip s' else s
  | [] => []
  end.

Definition rstrip (s : list A) : list A := reverse (lstrip (reverse s)).

(** [s.strip()] with no argument. *)
Definition strip (s : list A) : list A := rstrip (lstrip s).

End Strip.

Definition str_strip : text → text := strip isspace.
Definition bytes_strip : bytes → bytes := strip byte_isspace.

(** ** [str.split] *)

Fixpoint startswith (sep s : text) : bool :=
  match sep, s with
  | [], _ => true
  | a :: sep', b :: s' => (a =? b)%N && startswith sep' s'
  | _ :: _, [] => false
  end.

(** [s.split(sep, 1)] for a non-empty [sep]: the one-element list [[s]] when
    [sep] does not occur in [s], else the text before the first occurrence
    and the text after it. *)
Fixpoint str_split1 (sep s : text) {struct s} : list text :=
  if startswith sep s then [ [] ; drop (length sep) s ]
  else match s with
       | [] => [ [] ]
       | c :: s' =>
           match str_split1 sep s' with
           | before :: rest => (c :: before) :: rest
           | [] => []
           end
       end.

(** [s.split(sep)] cuts at every occurrence, left to right.  Each cut
    consumes at least one character of a non-empty [sep], so [length s] cuts
    are never exceeded ([str_split_unfold] below). *)
Fixpoint str_split_upto (n : nat) (sep s : text) : list text :=
  match n with
  | O => [s]
  | S n' =>
      match str_split1 sep s with
      | [before; after] => before :: str_split_upto n' sep after
      | _ => [s]
      end
  end.

Definition str_split (sep s : text) : list text :=
  str_split_upto (length s) sep s.

(** The line feed, and [os.linesep] and [os.sep] on POSIX. *)
Definition LF : string := String "010" EmptyString.
Definition os_linesep : text := u LF.
Definition os_sep : N := 47%N.

(** ** The loop of [search] (lines 102, 105-117) *)

(** One iteration of the loop body on [result]: [None] is [continue], and
    [Some (name, value)] is the assignment [packages[name] = value]. *)
Definition search_entry (result : text) : option (text * text) :=
  match str_split1 (u " - ") result with
  | [name; description] =>
      let name := str_strip name in
      if (length name =? 0)%nat then None
      else Some (name, str_strip (hd [] (str_split1 (u "<br") description)))
  | _ => None   (* ValueError on unpacking: continue *)
  end.

Definition search_step (packages : gmap text text) (result : text)
  : gmap text text :=
  match search_entry result with
  | Some (name, value) => <[name := value]> packages
  | None => packages
  end.

Definition search_parse (stdout : text) : gmap text text :=
  foldl search_step ∅ (str_split os_linesep stdout).

(** ** [os.path.join] (posixpath, two components) *)

Definition endswith_sep (a : text) : bool :=
  match last a with
  | Some c => (c =? os_sep)%N
  | None => false
  end.

Definition os_path_join (a b : text) : text :=
  if startswith [os_sep] b then b
  else if (length a =? 0)%nat || endswith_sep a then a ++ b
  else a ++ [os_sep] ++ b.

(** ** The world outside the wrapper *)

Definition Env := gmap text text.

Inductive FileKind := RegularFile | Directory | OtherFile.

(** The keyword arguments of one [subprocess.Popen] call (both pipes are
    always requested). *)
Record PopenCall := mkPopenCall {
  popen_args : list text;
  popen_cwd : text;
  popen_env : Env;
}.

(** What [Popen(...)] followed by [communicate()] does: either of them
    raises an [OSError] [e] (given by [str(e)]); or [Popen] refuses its
    arguments with a [ValueError] (an embedded null byte, or, as the subclass
    [UnicodeEncodeError], a string that cannot be encoded) before any child
    exists; or the child runs to its end and leaves an exit status and the
    two captured streams. *)
Inductive PopenOutcome :=
| Popen_OSError (e : text)
| Popen_ValueError (e : text)
| Popen_exited (returncode : Z) (stdout stderr : bytes).

(** Python list objects are mutable and shared by reference: they live in a
    heap, and names hold locations. *)
Definition loc := nat.

Record World := mkWorld {
  heap : gmap loc (list text);
  os_environ : Env;
  os_stat : text → option FileKind;
  os_popen : PopenCall → PopenOutcome;
  spawned : list PopenCall;
  printed : list (bytes * bytes);
}.

Definition load (st : World) (l : loc) : list text := default [] (heap st !! l).

(** [list.__iadd__]: extends the object at [l] in place. *)
Definition list_iadd (l : loc) (xs : list text) (st : World) : World :=
  mkWorld (alter (λ ys, ys ++ xs) l (heap st))
          (os_environ st) (os_stat st) (os_popen st) (spawned st) (printed st).

Definition record_spawn (c : PopenCall) (st : World) : World :=
  mkWorld (heap st) (os_environ st) (os_stat st) (os_popen st)
          (spawned st ++ [c]) (printed st).

(** [print(stdout, stderr)]. *)
Definition print (out : bytes * bytes) (st : World) : World :=
  mkWorld (heap st) (os_environ st) (os_stat st) (os_popen st)
          (spawned st) (printed st ++ [out]).

Definition os_path_isfile (st : World) (p : text) : bool :=
  match os_stat st p with
  | Some RegularFile => true
  | _ => false
  end.

(** ** Exceptions *)

(** The [output] attribute of a [CalledProcessError] is dynamically typed:
    line 47 stores the pair of streams there, line 56 a single stream. *)
Inductive Output :=
| OutputPair (stdout stderr : bytes)
| OutputBytes (b : bytes).

(** The exceptions that leave a method.  The three package exceptions are
    built from one tuple argument. *)
Inductive Exn :=
| OSError (message : text)
| IndexError
| ValueError (message : text)
| UnicodeDecodeError
| CalledProcessError (returncode : Z) (cmd : text) (output : Output)
| PackageInstallationException (payload : Z * Output * text)
| PackageRemovalException (payload : Z * Output * text)
| PackageWheelException (payload : Z * Output * text).

(** What the [try] block of [_execute] raises (lines 42-47). *)
Inductive RaisedInTry :=
| Try_OSError (e : text)
| Try_ValueError (e : text)
| Try_CalledProcessError (returncode : Z) (cmd : text) (output : bytes * bytes).

Definition Result (A : Type) : Type := (Exn + A) * World.

(** ** class PipWrapper *)

(** Line 15: the class body allocates one list and binds the class
    attribute [global_pip_args] to it. *)
Definition PipWrapper_global_pip_args : loc := 0%nat.

Definition class_defined (environ : Env) (stat : text → option FileKind)
    (popen : PopenCall → PopenOutcome) : World :=
  mkWorld {[ PipWrapper_global_pip_args := [u "--disable-pip-version-check"] ]}
          environ stat popen [] [].

(** The instance dictionary: [global_pip_args] is absent until line 20 binds
    it, and attribute lookup then falls back on the class. *)
Record PipWrapper := mkPipWrapper {
  path : text;
  global_pip_args : option loc;
  env : Env;
}.

Definition getattr_global_pip_args (self : PipWrapper) : loc :=
  match global_pip_args self with
  | Some l => l
  | None => PipWrapper_global_pip_args
  end.

Section PipWrapper.
(** [virtualenvapi.util.to_text] and the two [os.path] expansions (which
    read the process environment) are taken as given.  Decoding can fail:
    [None] stands for [to_text] raising [UnicodeDecodeError]. *)
Variable to_text : bytes → option text.
Variable os_path_expandvars : Env → text → text.
Variable os_path_expanduser : Env → text → text.

(** Lines 17-21.  [self.global_pip_args += xs] looks the attribute up
    (the instance has none yet, so the class list is found), extends that
    object in place and binds the instance attribute to it. *)
Definition __init__ (path : text) (cache : option text) (st : World)
  : PipWrapper * World :=
  match cache with
  | Some cache =>
      let l := PipWrapper_global_pip_args in
      let st' :=
        list_iadd l
          [u "--cache-dir";
           os_path_expanduser (os_environ st)
             (os_path_expandvars (os_environ st) cache)] st in
      (mkPipWrapper path (Some l) (os_environ st'), st')
  | None => (mkPipWrapper path None (os_environ st), st)
  end.

(** Lines 23-28. *)
Definition pip_rpath (self : PipWrapper) : text :=
  os_path_join (u "bin") (u "pip").

(** Lines 30-34. *)
Definition exists_ (self : PipWrapper) (st : World) : bool * World :=
  (os_path_isfile st (os_path_join (path self) (pip_rpath self)), st).

(** The body of the [try] (lines 42-47), given what the spawn did. *)
Definition _execute_try (args : list text) (outcome : PopenOutcome)
    (st : World) : (RaisedInTry + bytes * bytes) * World :=
  match outcome with
  | Popen_OSError e => (inl (Try_OSError e), st)
  | Popen_ValueError e => (inl (Try_ValueError e), st)
  | Popen_exited returncode stdout stderr =>
      if bool_decide (returncode ≠ 0) then
        (inl (Try_CalledProcessError returncode (hd [] args) (stdout, stderr)),
         print (stdout, stderr) st)
      else (inr (stdout, stderr), st)
  end.

(** The two [except] clauses (lines 48-57); an exception that neither
    clause names goes on as it is. *)
Definition _execute_except (self : PipWrapper) (args : list text)
    (e : RaisedInTry) : Exn :=
  match e with
  | Try_OSError e =>
      let prog := hd [] args in
      match prog with
      | [] => IndexError
      | c :: _ =>
          let prog :=
            if negb (c =? os_sep)%N then os_path_join (path self) prog
            else prog in
          OSError (prog ++ u ": " ++ e)
      end
  | Try_ValueError e => ValueError e
  | Try_CalledProcessError returncode cmd (output, error) =>
      CalledProcessError returncode cmd (OutputBytes output)
  end.

(** The call issued on lines 40-43. *)
Definition _execute_call (self : PipWrapper) (args : list text) (st : World)
  : PopenCall :=
  let args := [pip_rpath self] ++ load st (getattr_global_pip_args self) ++ args in
  mkPopenCall args (path self) (env self).

(** The [else] clause (line 59): the tuple is built from left to right, and
    a failure of [to_text] is raised outside the reach of the handlers. *)
Definition _execute_else (stdout stderr : bytes) : Exn + text * text :=
  match to_text (bytes_strip stdout) with
  | None => inl UnicodeDecodeError
  | Some out =>
      match to_text (bytes_strip stderr) with
      | None => inl UnicodeDecodeError
      | Some err => inr (out, err)
      end
  end.

(** Lines 36-59. *)
Definition _execute (self : PipWrapper) (args : list text) (st : World)
  : Result (text * text) :=
  let call := _execute_call self args st in
  let args := popen_args call in
  let st := record_spawn call st in
  match _execute_try args (os_popen st call) st with
  | (inl e, st) => (inl (_execute_except self args e), st)
  | (inr (stdout, stderr), st) => (_execute_else stdout stderr, st)
  end.

(** Lines 61-71. *)
Definition install (self : PipWrapper) (package_name : text)
    (options : option (list text)) (st : World) : Result (text * text) :=
  let options := default [] options in
  let args := [u "install"; package_name] ++ options in
  match _execute self args st with
  | (inl (CalledProcessError returncode _ output), st) =>
      (inl (PackageInstallationException (returncode, output, package_name)), st)
  | r => r
  end.

(** Lines 73-81. *)
Definition uninstall (self : PipWrapper) (package_name : text) (st : World)
  : Result (text * text) :=
  let args := [u "uninstall"; u "-y"; package_name] in
  match _execute self args st with
  | (inl (CalledProcessError returncode _ output), st) =>
      (inl (PackageRemovalException (returncode, output, package_name)), st)
  | r => r
  end.

(** Lines 83-93. *)
Definition wheel (self : PipWrapper) (package_name : text)
    (options : option (list text)) (st : World) : Result (text * text) :=
  let options := default [] options in
  let args := [u "wheel"; package_name] ++ options in
  match _execute self args st with
  | (inl (CalledProcessError returncode _ output), st) =>
      (inl (PackageWheelException (returncode, output, package_name)), st)
  | r => r
  end.

(** Lines 95-117. *)
Definition search (self : PipWrapper) (term : text) (st : World)
  : Result (gmap text text) :=
  let args := [u "search"; term] in
  match _execute self args st with
  | (inl e, st) => (inl e, st)
  | (inr (stdout, _), st) => (inr (search_parse stdout), st)
  end.


(** ** The life of the module *)

(** One step of a program that uses the class: it constructs a wrapper,
    calls a method, or the operating system changes under it.  What a child
    process does to the file system is such a change of the operating
    system: a method call itself records the [Popen] call and what it
    prints, and [os_stat] is the file system as [exists] finds it at the
    time it is called. *)
Inductive step : World → World → Prop :=
| step_init path cache st :
    step st (__init__ path cache st).2
| step_exists self st :
    step st (exists_ self st).2
| step_install self package_name options st :
    step st (install self package_name options st).2
| step_uninstall self package_name st :
    step st (uninstall self package_name st).2
| step_wheel self package_name options st :
    step st (wheel self package_name options st).2
| step_search self term st :
    step st (search self term st).2
| step_os environ stat popen st :
    step st (mkWorld (heap st) environ stat popen (spawned st) (printed st)).

Definition reachable (st : World) : Prop :=
  ∃ environ stat popen, rtc step (class_defined environ stat popen) st.

End PipWrapper.

(** The flags every wrapper reads: the content of the class-level list. *)
Definition class_flags (st : World) : list text :=
  load st PipWrapper_global_pip_args.

(** ** Vocabulary of the properties *)

(** [sep] occurs in [s] right after [before]. *)
Definition cut_at (sep s before after : text) : Prop :=
  s = before ++ sep ++ after.

(** ... and nowhere earlier. *)
Definition first_cut (sep s before after : text) : Prop :=
  cut_at sep s before after ∧
  ∀ before' after', cut_at sep s before' after' → (length before ≤ length before')%nat.

Definition occurs (sep s : text) : Prop := ∃ before after, cut_at sep s before after.

(** [sep.join(pieces)]. *)
Fixpoint str_join (sep : text) (pieces : list text) : text :=
  match pieces with
  | [] => []
  | [p] => p
  | p :: rest => p ++ sep ++ str_join sep rest
  end.

(** [kept] is [description] cut before the first [marker], or all of it when
    there is no [marker]. *)
Definition truncated_at (marker description kept : text) : Prop :=
  (¬ occurs marker description ∧ kept = description) ∨
  (∃ rest, first_cut marker description kept rest).

(** The line reads [raw_name - description], the trimmed name is not empty,
    and [value] is the trimmed description up to the marker. *)
Definition line_entry (line name value : text) : Prop :=
  ∃ raw_name description kept,
    first_cut (u " - ") line raw_name description ∧
    name = str_strip raw_name ∧ name ≠ [] ∧
    truncated_at (u "<br") description kept ∧
    value = str_strip kept.

(** The loop stores something under [name] when it reads [line]. *)
Definition names (name : text) (line : text) : Prop :=
  ∃ value, search_entry line = Some (name, value).

Definition in_range (lo hi n : N) : bool := ((lo <=? n) && (n <=? hi))%N.

(** Modelled from the spec: [virtualenvapi.util.to_text] is not under
    [src/]; the spec has the captured streams "decoded" to text, which on
    Python 3 is [bytes.decode('utf-8')] with strict error handling.  The
    well-formed byte sequences are those of the Unicode standard: no
    over-long forms, no surrogates, nothing above U+10FFFF; on any other
    input the decoder raises [UnicodeDecodeError] ([None]). *)
Fixpoint utf8_decode (s : bytes) : option text :=
  match s with
  | [] => Some []
  | b0 :: s1 =>
      let n0 := Byte.to_N b0 in
      if in_range 0 127 n0 then cons n0 <$> utf8_decode s1
      else if in_range 194 223 n0 then
        match s1 with
        | b1 :: s2 =>
            let n1 := Byte.to_N b1 in
            if in_range 128 191 n1
            then cons ((n0 - 192) * 64 + (n1 - 128))%N <$> utf8_decode s2
            else None
        | _ => None
        end
      else if in_range 224 239 n0 then
        match s1 with
        | b1 :: b2 :: s3 =>
            let n1 := Byte.to_N b1 in
            let n2 := Byte.to_N b2 in
            let lo := if (n0 =? 224)%N then 160%N else 128%N in
            let hi := if (n0 =? 237)%N then 159%N else 191%N in
            if in_range lo hi n1 && in_range 128 191 n2
            then cons ((n0 - 224) * 4096 + (n1 - 128) * 64 + (n2 - 128))%N
                   <$> utf8_decode s3
            else None
        | _ => None
        end
      else if in_range 240 244 n0 then
        match s1 with
        | b1 :: b2 :: b3 :: s4 =>
            let n1 := Byte.to_N b1 in
            let n2 := Byte.to_N b2 in
            let n3 := Byte.to_N b3 in
            let lo := if (n0 =? 240)%N then 144%N else 128%N in
            let hi := if (n0 =? 244)%N then 143%N else 191%N in
            if in_range lo hi n1 && in_range 128 191 n2 && in_range 128 191 n3
            then cons ((n0 - 240) * 262144 + (n1 - 128) * 4096
                       + (n2 - 128) * 64 + (n3 - 128))%N
                   <$> utf8_decode s4
            else None
        | _ => None
        end
      else None
  end.

(** Sample instances of what the model is parametric in, to run it on
    concrete inputs: the UTF-8 decoder, path expansion on a path with
    nothing to expand, an empty file system. *)
Definition bs (s : string) : bytes := list_byte_of_string s.
Definition sample_to_text (x : bytes) : option text := utf8_decode x.
Definition sample_expand (_ : Env) (p : text) : text := p.
Definition sample_stat (_ : text) : option FileKind := None.
Definition sample_popen (outcome : PopenOutcome) (_ : PopenCall) : PopenOutcome :=
  outcome.
Definition sample_world (outcome : PopenOutcome) : World :=
  class_defined ∅ sample_stat (sample_popen outcome).
Definition sample_wrapper : PipWrapper := mkPipWrapper (u "/env") None ∅.

(** * Properties *)

(** ** [str.split] cuts where it should *)

Lemma startswith_spec sep s : startswith sep s = true ↔ ∃ r, s = sep ++ r.
Proof.
  revert s. induction sep as [|a sep IH]; intros s; simpl.
  - split; [intros _; by exists s | done].
  - destruct s as [|b s].
    + split; [done | intros [r Hr]; discriminate].
    + rewrite andb_true_iff, N.eqb_eq, IH. split.
      * intros [-> [r ->]]. by exists r.
      * intros [r Hr]. injection Hr as -> ->. eauto.
Qed.

Lemma str_split1_cases sep s :
  (str_split1 sep s = [s] ∧ ¬ occurs sep s) ∨
  (∃ before after, str_split1 sep s = [before; after] ∧ first_cut sep s before after).
Proof.
  induction s as [|c s IH]; simpl.
  - destruct (startswith sep []) eqn:Hsw.
    + right. exists [], []. apply startswith_spec in Hsw as [r Hr].
      symmetry in Hr. apply app_eq_nil in Hr as [-> ->]. simpl.
      repeat split; intros; simpl; lia.
    + left. split; [done|]. intros (b & a & Hc). unfold cut_at in Hc.
      symmetry in Hc. apply app_eq_nil in Hc as [-> Hc]. apply app_eq_nil in Hc as [-> ->].
      simpl in Hsw. done.
  - destruct (startswith sep (c :: s)) eqn:Hsw.
    + right. exists [], (drop (length sep) (c :: s)). split; [done|].
      apply startswith_spec in Hsw as [r Hr]. split.
      * unfold cut_at. rewrite Hr at 1. simpl. f_equal.
        rewrite Hr. by rewrite drop_app_length.
      * intros; simpl; lia.
    + destruct IH as [[-> Hno] | (before & after & -> & Hcut & Hfirst)].
      * left. split; [done|]. intros (b & a & Hc). unfold cut_at in Hc.
        destruct b as [|c' b]; simpl in Hc.
        -- assert (startswith sep (c :: s) = true) as Ht
             by (apply startswith_spec; eauto). congruence.
        -- injection Hc as -> Hc. apply Hno. by exists b, a.
      * right. exists (c :: before), after. split; [done|]. split.
        -- unfold cut_at in *. simpl. by rewrite Hcut at 1.
        -- intros b' a' Hc. unfold cut_at in Hc.
           destruct b' as [|c' b']; simpl in Hc.
           ++ assert (startswith sep (c :: s) = true) as Ht
                by (apply startswith_spec; eauto). congruence.
           ++ injection Hc as -> Hc. simpl. apply le_n_S. by apply (Hfirst b' a').
Qed.

Lemma first_cut_unique sep s b1 a1 b2 a2 :
  first_cut sep s b1 a1 → first_cut sep s b2 a2 → b1 = b2 ∧ a1 = a2.
Proof.
  intros [H1 L1] [H2 L2].
  pose proof (L1 _ _ H2). pose proof (L2 _ _ H1).
  unfold cut_at in *. rewrite H1 in H2.
  assert (length b1 = length b2) as Hlen by lia.
  apply app_inj_1 in H2 as [-> H2]; [|done].
  apply app_inv_head in H2. done.
Qed.

Lemma str_split1_found sep s before after :
  str_split1 sep s = [before; after] ↔ first_cut sep s before after.
Proof.
  destruct (str_split1_cases sep s) as [[Hs Hno] | (b & a & Hs & Hcut)].
  - split.
    + rewrite Hs. discriminate.
    + intros [Hc _]. destruct Hno. by exists before, after.
  - split.
    + rewrite Hs. by intros [= <- <-].
    + intros Hcut'. destruct (first_cut_unique _ _ _ _ _ _ Hcut Hcut') as [-> ->]. done.
Qed.

Lemma str_split1_absent sep s :
  ¬ occurs sep s → str_split1 sep s = [s].
Proof.
  intros Hno. destruct (str_split1_cases sep s) as [[Hs _] | (b & a & _ & Hc & _)]; [done|].
  destruct Hno. by exists b, a.
Qed.

Lemma str_split1_hd sep s :
  hd [] (str_split1 sep s) = s ∧ ¬ occurs sep s ∨
  ∃ after, first_cut sep s (hd [] (str_split1 sep s)) after.
Proof.
  destruct (str_split1_cases sep s) as [[-> Hno] | (b & a & -> & Hc)]; simpl; eauto.
Qed.

(** The bound on the number of cuts is never reached. *)
Lemma str_split_upto_enough sep n s :
  sep ≠ [] → (length s ≤ n)%nat →
  str_split_upto n sep s = str_split_upto (length s) sep s.
Proof.
  intros Hsep. revert s. induction n as [n IH] using lt_wf_ind. intros s Hn.
  destruct n as [|n].
  - by replace (length s) with 0%nat by lia.
  - destruct (length s) as [|m] eqn:Hlen.
    + destruct s; [|done]. cbn [str_split_upto].
      destruct (str_split1_cases sep []) as [[-> _] | (b & a & _ & Hc & _)]; [done|].
      unfold cut_at in Hc. symmetry in Hc.
      apply app_eq_nil in Hc as [_ Hc]. apply app_eq_nil in Hc as [-> _]. done.
    + cbn [str_split_upto].
      destruct (str_split1_cases sep s) as [[-> _] | (b & a & -> & Hc & _)]; [done|].
      f_equal. unfold cut_at in Hc.
      assert (length a ≤ m)%nat as Ha.
      { apply (f_equal length) in Hc. rewrite !length_app in Hc.
        destruct sep; [done|]. simpl in Hc. lia. }
      rewrite (IH n) by lia. rewrite (IH m) by lia. done.
Qed.

Lemma str_split_unfold sep s :
  sep ≠ [] →
  str_split sep s =
    match str_split1 sep s with
    | [before; after] => before :: str_split sep after
    | _ => [s]
    end.
Proof.
  intros Hsep. unfold str_split.
  destruct (str_split1_cases sep s) as [[Hs _] | (b & a & Hs & Hc & _)].
  - rewrite Hs. destruct (length s); cbn [str_split_upto]; by rewrite ?Hs.
  - rewrite Hs. unfold cut_at in Hc.
    assert (length a < length s)%nat as Ha.
    { apply (f_equal length) in Hc. rewrite !length_app in Hc.
      destruct sep; [done|]. simpl in Hc. lia. }
    destruct (length s) as [|m] eqn:Hlen; [lia|]. cbn [str_split_upto]. rewrite Hs.
    f_equal. apply str_split_upto_enough; [done | lia].
Qed.

(** The pieces of [s.split(sep)] are free of [sep] and, joined by [sep],
    give [s] back. *)
Lemma first_cut_before_free sep s before after :
  sep ≠ [] → first_cut sep s before after → ¬ occurs sep before.
Proof.
  intros Hsep [Hc Hfirst] (x & y & Hxy). unfold cut_at in *.
  specialize (Hfirst x (y ++ sep ++ after)).
  rewrite Hc, Hxy in Hfirst. rewrite <- !app_assoc in Hfirst.
  specialize (Hfirst eq_refl). rewrite !length_app in Hfirst.
  destruct sep; [done|]. simpl in Hfirst. lia.
Qed.

Lemma str_split_spec sep s :
  sep ≠ [] →
  str_split sep s ≠ [] ∧
  str_join sep (str_split sep s) = s ∧
  Forall (λ piece, ¬ occurs sep piece) (str_split sep s).
Proof.
  intros Hsep. remember (length s) as n eqn:Hn. revert s Hn.
  induction n as [n IH] using lt_wf_ind. intros s ->.
  rewrite str_split_unfold by done.
  destruct (str_split1_cases sep s) as [[-> Hno] | (b & a & -> & Hc)].
  - repeat split; [done | by constructor].
  - assert (length a < length s)%nat as Ha.
    { destruct Hc as [Hc _]. unfold cut_at in Hc.
      apply (f_equal length) in Hc. rewrite !length_app in Hc.
      destruct sep; [done|]. simpl in Hc. lia. }
    destruct (IH _ Ha a eq_refl) as (Hne & Hjoin & Hfree).
    repeat split; [done | |].
    + cbn [str_join]. destruct (str_split sep a) eqn:Hsp; [done|].
      rewrite Hjoin. symmetry. apply Hc.
    + constructor; [|done]. by eapply first_cut_before_free.
Qed.

(** ** [strip] removes white space at both ends, and nothing else *)

Section StripSpec.
Context {A : Type} (space : A → bool).

Lemma lstrip_spec (s : list A) :
  ∃ l, s = l ++ lstrip space s ∧ Forall (λ c, space c = true) l ∧
       ∀ c, head (lstrip space s) = Some c → space c = false.
Proof.
  induction s as [|c s (l & Hs & Hl & Hh)]; simpl.
  - exists []. repeat split; [constructor | done].
  - destruct (space c) eqn:Hc.
    + exists (c :: l). repeat split; [by rewrite Hs at 1 | by constructor | done].
    + exists []. repeat split; [constructor | by intros ? [= <-]].
Qed.

Lemma strip_spec (s : list A) :
  ∃ l r, s = l ++ strip space s ++ r ∧
         Forall (λ c, space c = true) l ∧ Forall (λ c, space c = true) r ∧
         (∀ c, head (strip space s) = Some c → space c = false) ∧
         (∀ c, last (strip space s) = Some c → space c = false).
Proof.
  unfold strip, rstrip.
  destruct (lstrip_spec s) as (l & Hs & Hl & Hh).
  destruct (lstrip_spec (reverse (lstrip space s))) as (r & Hr & Hrs & Hrh).
  exists l, (reverse r).
  assert (lstrip space s
          = reverse (lstrip space (reverse (lstrip space s))) ++ reverse r) as Hmid.
  { rewrite <- reverse_app, <- Hr. by rewrite reverse_involutive. }
  repeat split.
  - by rewrite <- Hmid.
  - done.
  - apply Forall_forall. intros c Hc. rewrite elem_of_reverse in Hc.
    revert c Hc. by apply Forall_forall.
  - intros c Hc. apply Hh. rewrite Hmid.
    by destruct (reverse (lstrip space (reverse (lstrip space s)))).
  - intros c Hc. apply Hrh. by rewrite last_reverse in Hc.
Qed.

End StripSpec.

(** ** What one line of search output contributes *)

Lemma search_entry_spec line name value :
  search_entry line = Some (name, value) ↔ line_entry line name value.
Proof.
  unfold search_entry, line_entry.
  destruct (str_split1_cases (u " - ") line) as [[-> Hno] | (b & a & -> & Hc)].
  - split; [done|]. intros (rn & d & k & [Hcut _] & _). destruct Hno. by exists rn, d.
  - destruct (length (str_strip b) =? 0)%nat eqn:Hlen.
    + apply Nat.eqb_eq in Hlen. split; [done|].
      intros (rn & d & k & Hcut & -> & Hne & _).
      destruct (first_cut_unique _ _ _ _ _ _ Hc Hcut) as [<- _].
      by destruct (str_strip b).
    + apply Nat.eqb_neq in Hlen. split.
      * intros [= <- <-]. exists b, a, (hd [] (str_split1 (u "<br") a)).
        repeat split; try apply Hc; [by intros Hnil; rewrite Hnil in Hlen|].
        destruct (str_split1_hd (u "<br") a) as [[-> Hno] | [rest Hcut]];
          [by left | right; eauto].
      * intros (rn & d & k & Hcut & -> & Hne & Htr & ->).
        destruct (first_cut_unique _ _ _ _ _ _ Hc Hcut) as [<- <-].
        do 3 f_equal. destruct Htr as [[Hno ->] | [rest Hk]].
        -- by rewrite str_split1_absent.
        -- apply str_split1_found in Hk. by rewrite Hk.
Qed.

Lemma search_entry_no_separator line :
  ¬ occurs (u " - ") line → search_entry line = None.
Proof.
  intros Hno. unfold search_entry. by rewrite str_split1_absent.
Qed.

Lemma search_entry_empty_name line raw_name description :
  first_cut (u " - ") line raw_name description → str_strip raw_name = [] →
  search_entry line = None.
Proof.
  intros Hc Hnil. unfold search_entry.
  apply str_split1_found in Hc. rewrite Hc. by rewrite Hnil.
Qed.

(** ** The mapping built by the loop: the last line for a name wins *)

Lemma foldl_search_step_skip post m name :
  Forall (λ l, ¬ names name l) post →
  foldl search_step m post !! name = m !! name.
Proof.
  revert m. induction post as [|l post IH]; intros m Hpost; [done|].
  apply Forall_cons in Hpost as [Hl Hpost]. simpl. rewrite IH by done.
  unfold search_step. destruct (search_entry l) as [[n v]|] eqn:He; [|done].
  apply lookup_insert_ne. intros ->. apply Hl. by exists v.
Qed.

Lemma foldl_search_step_last pre line post m name value :
  search_entry line = Some (name, value) →
  Forall (λ l, ¬ names name l) post →
  foldl search_step m (pre ++ line :: post) !! name = Some value.
Proof.
  intros He Hpost. rewrite foldl_app. simpl.
  rewrite foldl_search_step_skip by done.
  unfold search_step at 1. rewrite He. apply lookup_insert_eq.
Qed.

Lemma foldl_search_step_origin lines m name value :
  foldl search_step m lines !! name = Some value →
  (m !! name = Some value ∧ Forall (λ l, ¬ names name l) lines) ∨
  ∃ pre line post,
    lines = pre ++ line :: post ∧ search_entry line = Some (name, value) ∧
    Forall (λ l, ¬ names name l) post.
Proof.
  induction lines as [|l lines IH] using rev_ind; simpl.
  - intros Hm. left. by split.
  - rewrite foldl_app. simpl. unfold search_step at 1.
    destruct (search_entry l) as [[n v]|] eqn:He.
    + destruct (decide (n = name)) as [->|Hn].
      * rewrite lookup_insert_eq. intros [= ->]. right.
        exists lines, l, []. by repeat split.
      * rewrite lookup_insert_ne by done. intros Hm.
        assert (¬ names name l) as Hl by (intros [v' Hv']; congruence).
        destruct (IH Hm) as [[H0 Hall] | (pre & line & post & -> & Hline & Hpost)].
        -- left. split; [done|]. apply Forall_app. split; [done | by constructor].
        -- right. exists pre, line, (post ++ [l]). rewrite <- app_assoc. simpl.
           repeat split; [done|]. apply Forall_app. split; [done | by constructor].
    + intros Hm.
      assert (¬ names name l) as Hl by (intros [v' Hv']; congruence).
      destruct (IH Hm) as [[H0 Hall] | (pre & line & post & -> & Hline & Hpost)].
      * left. split; [done|]. apply Forall_app. split; [done | by constructor].
      * right. exists pre, line, (post ++ [l]). rewrite <- app_assoc. simpl.
        repeat split; [done|]. apply Forall_app. split; [done | by constructor].
Qed.

Lemma search_parse_lookup stdout name value :
  search_parse stdout !! name = Some value ↔
  ∃ pre line post,
    str_split os_linesep stdout = pre ++ line :: post ∧
    search_entry line = Some (name, value) ∧
    Forall (λ l, ¬ names name l) post.
Proof.
  unfold search_parse. split.
  - intros Hm. apply foldl_search_step_origin in Hm as [[Hm _] | H]; [|done].
    by rewrite lookup_empty in Hm.
  - intros (pre & line & post & -> & He & Hpost).
    by apply foldl_search_step_last.
Qed.

(** ** What [_execute] does with each outcome of the spawn *)

Section Execute.
Variable to_text : bytes → option text.

Lemma pip_rpath_eq self : pip_rpath self = u "bin/pip".
Proof. reflexivity. Qed.

Lemma _execute_nonzero self args st returncode stdout stderr :
  os_popen st (_execute_call self args st) = Popen_exited returncode stdout stderr →
  returncode ≠ 0 →
  _execute to_text self args st
  = (inl (CalledProcessError returncode (u "bin/pip") (OutputBytes stdout)),
     print (stdout, stderr) (record_spawn (_execute_call self args st) st)).
Proof.
  intros Hp Hrc. unfold _execute. cbn [os_popen record_spawn]. rewrite Hp.
  unfold _execute_try. rewrite bool_decide_true by done. reflexivity.
Qed.

Lemma _execute_zero self args st stdout stderr :
  os_popen st (_execute_call self args st) = Popen_exited 0 stdout stderr →
  _execute to_text self args st
  = (_execute_else to_text stdout stderr,
     record_spawn (_execute_call self args st) st).
Proof.
  intros Hp. unfold _execute. cbn [os_popen record_spawn]. rewrite Hp.
  reflexivity.
Qed.

Lemma _execute_else_decoded stdout stderr out err :
  to_text (bytes_strip stdout) = Some out →
  to_text (bytes_strip stderr) = Some err →
  _execute_else to_text stdout stderr = inr (out, err).
Proof. intros Ho He. unfold _execute_else. by rewrite Ho, He. Qed.

Lemma _execute_else_undecodable stdout stderr :
  to_text (bytes_strip stdout) = None ∨ to_text (bytes_strip stderr) = None →
  _execute_else to_text stdout stderr = inl UnicodeDecodeError.
Proof.
  unfold _execute_else. intros [-> | ->]; [done|].
  by destruct (to_text (bytes_strip stdout)).
Qed.

Lemma _execute_else_cases stdout stderr :
  _execute_else to_text stdout stderr = inl UnicodeDecodeError ∨
  ∃ out err, to_text (bytes_strip stdout) = Some out ∧
             to_text (bytes_strip stderr) = Some err ∧
             _execute_else to_text stdout stderr = inr (out, err).
Proof.
  unfold _execute_else.
  destruct (to_text (bytes_strip stdout)) as [out|]; [|by left].
  destruct (to_text (bytes_strip stderr)) as [err|]; [|by left].
  right. by exists out, err.
Qed.

Lemma _execute_valueerror self args st e :
  os_popen st (_execute_call self args st) = Popen_ValueError e →
  _execute to_text self args st
  = (inl (ValueError e), record_spawn (_execute_call self args st) st).
Proof.
  intros Hp. unfold _execute. cbn [os_popen record_spawn]. rewrite Hp.
  reflexivity.
Qed.

Lemma _execute_oserror self args st e :
  os_popen st (_execute_call self args st) = Popen_OSError e →
  _execute to_text self args st
  = (inl (OSError (os_path_join (path self) (u "bin/pip") ++ u ": " ++ e)),
     record_spawn (_execute_call self args st) st).
Proof.
  intros Hp. unfold _execute. cbn [os_popen record_spawn]. rewrite Hp.
  reflexivity.
Qed.

End Execute.

(** ** Failures and results of the public methods *)

(** C1.  For every package name and every non-zero exit code of the
    subprocess, [install] raises [PackageInstallationException] whose payload
    holds that exit code and that package name (and, between them, the
    captured standard output). *)
Theorem install_nonzero_raises to_text self package_name options st
    returncode stdout stderr :
  os_popen st (_execute_call self ([u "install"; package_name] ++ default [] options) st)
    = Popen_exited returncode stdout stderr →
  returncode ≠ 0 →
  (install to_text self package_name options st).1
  = inl (PackageInstallationException (returncode, OutputBytes stdout, package_name)).
Proof.
  intros Hp Hrc. unfold install. cbv zeta.
  rewrite (_execute_nonzero to_text _ _ _ _ _ _ Hp Hrc). reflexivity.
Qed.

Lemma install_nonzero_raises_witness :
  (install sample_to_text sample_wrapper (u "requests") (Some [u "--upgrade"])
     (sample_world (Popen_exited 2 (bs "no such package") (bs "ERROR")))).1
  = inl (PackageInstallationException (2, OutputBytes (bs "no such package"), u "requests")).
Proof.
  apply (install_nonzero_raises sample_to_text sample_wrapper (u "requests")
           (Some [u "--upgrade"]) _ 2 (bs "no such package") (bs "ERROR")).
  - reflexivity.
  - discriminate.
Defined.

(** C6, as amended.  For every package name, when the subprocess exits with
    code 0 and both captured streams, stripped of white space, can be
    decoded, [install] returns the pair of the decoded texts and raises
    nothing; when one of them cannot be decoded, the [UnicodeDecodeError] of
    the decoder leaves [install]. *)
Theorem install_zero_returns to_text self package_name options st stdout stderr :
  os_popen st (_execute_call self ([u "install"; package_name] ++ default [] options) st)
    = Popen_exited 0 stdout stderr →
  (∀ out err,
     to_text (bytes_strip stdout) = Some out →
     to_text (bytes_strip stderr) = Some err →
     (install to_text self package_name options st).1 = inr (out, err)) ∧
  (to_text (bytes_strip stdout) = None ∨ to_text (bytes_strip stderr) = None →
   (install to_text self package_name options st).1 = inl UnicodeDecodeError).
Proof.
  intros Hp. unfold install. cbv zeta.
  rewrite (_execute_zero to_text _ _ _ _ _ Hp). split.
  - intros out err Ho He. by rewrite (_execute_else_decoded to_text _ _ _ _ Ho He).
  - intros Hnone. by rewrite (_execute_else_undecodable to_text _ _ Hnone).
Qed.

Lemma install_zero_returns_witness :
  (install sample_to_text sample_wrapper (u "requests") None
     (sample_world (Popen_exited 0 (bs (" ok" ++ LF)) []))).1
  = inr (u "ok", []).
Proof.
  apply (install_zero_returns sample_to_text sample_wrapper (u "requests") None
           _ (bs (" ok" ++ LF)) []).
  - reflexivity.
  - reflexivity.
  - reflexivity.
Defined.

(** C6, as stated, fails.  [pip install cafe] that exits with code 0 after
    writing the four bytes [63 61 66 e9] (hexadecimal), which are not UTF-8,
    makes [install] raise [UnicodeDecodeError]: it is not true that
    [install] returns for every output of a subprocess that exits with
    code 0. *)
Lemma install_zero_undecodable_raises :
  (install sample_to_text sample_wrapper (u "cafe") None
     (sample_world (Popen_exited 0 [Byte.x63; Byte.x61; Byte.x66; Byte.xe9] []))).1
    = inl UnicodeDecodeError ∧
  ¬ ∀ to_text self package_name options st stdout stderr,
      os_popen st (_execute_call self ([u "install"; package_name] ++ default [] options) st)
        = Popen_exited 0 stdout stderr →
      ∃ out err, (install to_text self package_name options st).1 = inr (out, err).
Proof.
  split; [reflexivity|]. intros Hall.
  destruct (Hall sample_to_text sample_wrapper (u "cafe") None
              (sample_world (Popen_exited 0 [Byte.x63; Byte.x61; Byte.x66; Byte.xe9] []))
              [Byte.x63; Byte.x61; Byte.x66; Byte.xe9] [] eq_refl)
    as (out & err & Hr).
  vm_compute in Hr. discriminate.
Qed.

(** C2, as amended.  The failure first raised inside [_execute] on a non-zero
    exit holds the exit code and both captured streams, but the handler of
    [_execute] keeps the standard output only: the [CalledProcessError] that
    leaves [_execute] holds the exit code, the command ['bin/pip'] and
    stdout, and [install], [uninstall] and [wheel] wrap (exit code, stdout,
    package name). *)
Theorem execute_failure_payload to_text self args st returncode stdout stderr :
  os_popen st (_execute_call self args st) = Popen_exited returncode stdout stderr →
  returncode ≠ 0 →
  (_execute_try (popen_args (_execute_call self args st))
     (Popen_exited returncode stdout stderr) st).1
    = inl (Try_CalledProcessError returncode (u "bin/pip") (stdout, stderr)) ∧
  (_execute to_text self args st).1
    = inl (CalledProcessError returncode (u "bin/pip") (OutputBytes stdout)) ∧
  (∀ package_name options,
     args = [u "install"; package_name] ++ default [] options →
     (install to_text self package_name options st).1
     = inl (PackageInstallationException (returncode, OutputBytes stdout, package_name))) ∧
  (∀ package_name,
     args = [u "uninstall"; u "-y"; package_name] →
     (uninstall to_text self package_name st).1
     = inl (PackageRemovalException (returncode, OutputBytes stdout, package_name))) ∧
  (∀ package_name options,
     args = [u "wheel"; package_name] ++ default [] options →
     (wheel to_text self package_name options st).1
     = inl (PackageWheelException (returncode, OutputBytes stdout, package_name))).
Proof.
  intros Hp Hrc. repeat split.
  - unfold _execute_try. rewrite bool_decide_true by done. reflexivity.
  - by rewrite (_execute_nonzero to_text _ _ _ _ _ _ Hp Hrc).
  - intros package_name options ->. unfold install. cbv zeta.
    by rewrite (_execute_nonzero to_text _ _ _ _ _ _ Hp Hrc).
  - intros package_name ->. unfold uninstall. cbv zeta.
    by rewrite (_execute_nonzero to_text _ _ _ _ _ _ Hp Hrc).
  - intros package_name options ->. unfold wheel. cbv zeta.
    by rewrite (_execute_nonzero to_text _ _ _ _ _ _ Hp Hrc).
Qed.

Lemma execute_failure_payload_witness :
  (_execute sample_to_text sample_wrapper [u "uninstall"; u "-y"; u "six"]
     (sample_world (Popen_exited 1 (bs "out") (bs "err")))).1
  = inl (CalledProcessError 1 (u "bin/pip") (OutputBytes (bs "out"))).
Proof.
  apply (execute_failure_payload sample_to_text sample_wrapper
           [u "uninstall"; u "-y"; u "six"] _ 1 (bs "out") (bs "err")).
  - reflexivity.
  - discriminate.
Defined.

(** C2, as stated, fails.  A run of [pip list] that exits with code 1 after
    writing [out] and [err] leaves [_execute] with a [CalledProcessError]
    that holds [out] alone, and so does the run that writes [other] instead
    of [err]: no reading of the failure gives back both captured streams. *)
Lemma execute_failure_drops_stderr :
  (_execute sample_to_text sample_wrapper [u "list"]
     (sample_world (Popen_exited 1 (bs "out") (bs "err")))).1
    = inl (CalledProcessError 1 (u "bin/pip") (OutputBytes (bs "out"))) ∧
  (_execute sample_to_text sample_wrapper [u "list"]
     (sample_world (Popen_exited 1 (bs "out") (bs "other")))).1
    = inl (CalledProcessError 1 (u "bin/pip") (OutputBytes (bs "out"))) ∧
  ¬ ∃ read : Exn → bytes * bytes,
      ∀ to_text self args st returncode stdout stderr,
        os_popen st (_execute_call self args st) = Popen_exited returncode stdout stderr →
        returncode ≠ 0 →
        ∃ e, (_execute to_text self args st).1 = inl e ∧ read e = (stdout, stderr).
Proof.
  split; [reflexivity|]. split; [reflexivity|].
  intros [read Hread].
  destruct (Hread sample_to_text sample_wrapper [u "list"]
              (sample_world (Popen_exited 1 (bs "out") (bs "err")))
              1 (bs "out") (bs "err") eq_refl ltac:(discriminate))
    as (e1 & He1 & Hr1).
  destruct (Hread sample_to_text sample_wrapper [u "list"]
              (sample_world (Popen_exited 1 (bs "out") (bs "other")))
              1 (bs "out") (bs "other") eq_refl ltac:(discriminate))
    as (e2 & He2 & Hr2).
  vm_compute in He1, He2. injection He1 as <-. injection He2 as <-.
  rewrite Hr1 in Hr2. discriminate.
Qed.

(** C5.  For every package name and non-zero exit code, [uninstall] raises
    [PackageRemovalException] and [wheel] raises [PackageWheelException],
    two different kinds of failure that hold the exit code, the captured
    standard output and the package name; and whatever the subprocess does,
    neither lets a [CalledProcessError] out. *)
Theorem uninstall_wheel_raise_their_own to_text self package_name options
    returncode stdout stderr :
  returncode ≠ 0 →
  (∀ st,
     os_popen st (_execute_call self [u "uninstall"; u "-y"; package_name] st)
       = Popen_exited returncode stdout stderr →
     (uninstall to_text self package_name st).1
     = inl (PackageRemovalException (returncode, OutputBytes stdout, package_name))) ∧
  (∀ st,
     os_popen st (_execute_call self ([u "wheel"; package_name] ++ default [] options) st)
       = Popen_exited returncode stdout stderr →
     (wheel to_text self package_name options st).1
     = inl (PackageWheelException (returncode, OutputBytes stdout, package_name))) ∧
  (∀ p q, PackageRemovalException p ≠ PackageWheelException q) ∧
  (∀ p code cmd output,
     PackageRemovalException p ≠ CalledProcessError code cmd output ∧
     PackageWheelException p ≠ CalledProcessError code cmd output) ∧
  (∀ st code cmd output,
     (uninstall to_text self package_name st).1 ≠ inl (CalledProcessError code cmd output)) ∧
  (∀ st code cmd output,
     (wheel to_text self package_name options st).1 ≠ inl (CalledProcessError code cmd output)).
Proof.
  intros Hrc. repeat split; try discriminate.
  - intros st Hp. unfold uninstall. cbv zeta.
    by rewrite (_execute_nonzero to_text _ _ _ _ _ _ Hp Hrc).
  - intros st Hp. unfold wheel. cbv zeta.
    by rewrite (_execute_nonzero to_text _ _ _ _ _ _ Hp Hrc).
  - intros st code cmd output. unfold uninstall. cbv zeta.
    by destruct (_execute to_text self _ st) as [[[]|] ?].
  - intros st code cmd output. unfold wheel. cbv zeta.
    by destruct (_execute to_text self _ st) as [[[]|] ?].
Qed.

Lemma uninstall_wheel_raise_their_own_witness :
  (uninstall sample_to_text sample_wrapper (u "six")
     (sample_world (Popen_exited 1 (bs "not installed") []))).1
  = inl (PackageRemovalException (1, OutputBytes (bs "not installed"), u "six")) ∧
  (wheel sample_to_text sample_wrapper (u "six") None
     (sample_world (Popen_exited 1 (bs "not installed") []))).1
  = inl (PackageWheelException (1, OutputBytes (bs "not installed"), u "six")).
Proof.
  pose proof (uninstall_wheel_raise_their_own sample_to_text sample_wrapper
                (u "six") None 1 (bs "not installed") []
                ltac:(discriminate)) as (Hu & Hw & _).
  split; [apply Hu | apply Hw]; reflexivity.
Defined.

(** C9.  When the spawn fails with an OS error, [_execute] raises an
    [OSError] whose message is the resolved program path, [': '], and the
    text of the underlying error; the resolved path is ['bin/pip'], which is
    never absolute, joined onto the environment root.  The public methods
    let this failure through unchanged. *)
Theorem launch_failure_names_program to_text self args st e :
  os_popen st (_execute_call self args st) = Popen_OSError e →
  (_execute to_text self args st).1
    = inl (OSError (os_path_join (path self) (u "bin/pip") ++ u ": " ++ e)) ∧
  os_path_join (path self) (u "bin/pip")
    = (if (length (path self) =? 0)%nat || endswith_sep (path self)
       then path self ++ u "bin/pip" else path self ++ u "/bin/pip") ∧
  (∀ package_name options,
     args = [u "install"; package_name] ++ default [] options →
     (install to_text self package_name options st).1
     = (_execute to_text self args st).1) ∧
  (∀ package_name,
     args = [u "uninstall"; u "-y"; package_name] →
     (uninstall to_text self package_name st).1 = (_execute to_text self args st).1) ∧
  (∀ package_name options,
     args = [u "wheel"; package_name] ++ default [] options →
     (wheel to_text self package_name options st).1 = (_execute to_text self args st).1) ∧
  (∀ term,
     args = [u "search"; term] →
     (search to_text self term st).1
     = inl (OSError (os_path_join (path self) (u "bin/pip") ++ u ": " ++ e))).
Proof.
  intros Hp. repeat split.
  - by rewrite (_execute_oserror to_text _ _ _ _ Hp).
  - intros package_name options ->. unfold install. cbv zeta.
    by rewrite (_execute_oserror to_text _ _ _ _ Hp).
  - intros package_name ->. unfold uninstall. cbv zeta.
    by rewrite (_execute_oserror to_text _ _ _ _ Hp).
  - intros package_name options ->. unfold wheel. cbv zeta.
    by rewrite (_execute_oserror to_text _ _ _ _ Hp).
  - intros term ->. unfold search. cbv zeta.
    by rewrite (_execute_oserror to_text _ _ _ _ Hp).
Qed.

Lemma launch_failure_names_program_witness :
  (_execute sample_to_text sample_wrapper [u "install"; u "six"]
     (sample_world (Popen_OSError (u "[Errno 2] No such file or directory: 'bin/pip'")))).1
  = inl (OSError (u "/env/bin/pip: [Errno 2] No such file or directory: 'bin/pip'")).
Proof.
  apply (launch_failure_names_program sample_to_text sample_wrapper
           [u "install"; u "six"] _
           (u "[Errno 2] No such file or directory: 'bin/pip'")).
  reflexivity.
Defined.

(** ** The executable and the argument vector *)

(** C8.  [exists()] is true exactly when a regular file is found at the
    environment root joined with ['bin/pip'], and it leaves the world, hence
    all that the wrapper reads, as it was. *)
Theorem exists_iff_file self st :
  ((exists_ self st).1 = true
   ↔ os_stat st (os_path_join (path self) (u "bin/pip")) = Some RegularFile) ∧
  (exists_ self st).2 = st ∧
  os_path_join (path self) (u "bin/pip")
    = (if (length (path self) =? 0)%nat || endswith_sep (path self)
       then path self ++ u "bin/pip" else path self ++ u "/bin/pip").
Proof.
  repeat split; unfold exists_, os_path_isfile; cbn [fst]; rewrite pip_rpath_eq.
  - by destruct (os_stat st _) as [[]|].
  - by intros ->.
Qed.

Section Invariant.
Variable to_text : bytes → option text.
Variable os_path_expandvars : Env → text → text.
Variable os_path_expanduser : Env → text → text.

Local Abbreviation init := (__init__ os_path_expandvars os_path_expanduser).
Local Abbreviation steps := (rtc (step to_text os_path_expandvars os_path_expanduser)).

Lemma _execute_heap self args st :
  heap (_execute to_text self args st).2 = heap st.
Proof.
  unfold _execute, _execute_try. cbv zeta. cbn [os_popen record_spawn].
  destruct (os_popen st _) as [e|e|rc out err]; [done|done|].
  by case_bool_decide.
Qed.

Lemma _execute_spawned self args st :
  spawned (_execute to_text self args st).2
  = spawned st ++ [_execute_call self args st].
Proof.
  unfold _execute, _execute_try. cbv zeta. cbn [os_popen record_spawn].
  destruct (os_popen st _) as [e|e|rc out err]; [done|done|].
  by case_bool_decide.
Qed.

Lemma install_world self package_name options st :
  (install to_text self package_name options st).2
  = (_execute to_text self ([u "install"; package_name] ++ default [] options) st).2.
Proof. unfold install. cbv zeta. by destruct (_execute _ _ _ _) as [[[]|] ?]. Qed.

Lemma uninstall_world self package_name st :
  (uninstall to_text self package_name st).2
  = (_execute to_text self [u "uninstall"; u "-y"; package_name] st).2.
Proof. unfold uninstall. cbv zeta. by destruct (_execute _ _ _ _) as [[[]|] ?]. Qed.

Lemma wheel_world self package_name options st :
  (wheel to_text self package_name options st).2
  = (_execute to_text self ([u "wheel"; package_name] ++ default [] options) st).2.
Proof. unfold wheel. cbv zeta. by destruct (_execute _ _ _ _) as [[[]|] ?]. Qed.

Lemma search_world self term st :
  (search to_text self term st).2
  = (_execute to_text self [u "search"; term] st).2.
Proof. unfold search. cbv zeta. by destruct (_execute _ _ _ _) as [[|[]] ?]. Qed.

Lemma init_class_flags root dir st :
  is_Some (heap st !! PipWrapper_global_pip_args) →
  class_flags (init root (Some dir) st).2
  = class_flags st
    ++ [u "--cache-dir";
        os_path_expanduser (os_environ st) (os_path_expandvars (os_environ st) dir)].
Proof.
  intros [flags Hf]. unfold class_flags, load. cbn [__init__ snd list_iadd heap].
  rewrite lookup_alter_eq, Hf. reflexivity.
Qed.


(** The class-level list is never lost and only ever grows at its end. *)
Lemma step_class_flags st st' :
  step to_text os_path_expandvars os_path_expanduser st st' →
  is_Some (heap st !! PipWrapper_global_pip_args) →
  is_Some (heap st' !! PipWrapper_global_pip_args) ∧
  class_flags st `prefix_of` class_flags st'.
Proof.
  intros Hstep Hsome.
  assert (∀ w, heap w = heap st →
               is_Some (heap w !! PipWrapper_global_pip_args) ∧
               class_flags st `prefix_of` class_flags w) as Hsame.
  { intros w Hw. unfold class_flags, load. by rewrite Hw. }
  destruct Hstep as [p [dir|] st | | | | | | ]; try (apply Hsame; done).
  - split.
    + cbn [__init__ snd list_iadd heap]. rewrite lookup_alter_eq.
      by apply fmap_is_Some.
    + rewrite init_class_flags by done. by apply prefix_app_r.
  - apply Hsame. by rewrite install_world, _execute_heap.
  - apply Hsame. by rewrite uninstall_world, _execute_heap.
  - apply Hsame. by rewrite wheel_world, _execute_heap.
  - apply Hsame. by rewrite search_world, _execute_heap.
Qed.

Lemma steps_class_flags st st' :
  steps st st' →
  is_Some (heap st !! PipWrapper_global_pip_args) →
  is_Some (heap st' !! PipWrapper_global_pip_args) ∧
  class_flags st `prefix_of` class_flags st'.
Proof.
  induction 1 as [st|st st1 st2 Hstep _ IH]; intros Hsome; [done|].
  destruct (step_class_flags _ _ Hstep Hsome) as [Hsome1 Hpre1].
  destruct (IH Hsome1) as [Hsome2 Hpre2].
  split; [done|]. by etrans.
Qed.

Lemma reachable_class_flags st :
  reachable to_text os_path_expandvars os_path_expanduser st →
  is_Some (heap st !! PipWrapper_global_pip_args) ∧
  [u "--disable-pip-version-check"] `prefix_of` class_flags st.
Proof.
  intros (environ & stat & popen & Hsteps).
  by apply steps_class_flags in Hsteps.
Qed.

End Invariant.



(** C3 fails on the code: the one list bound to the class attribute is
    extended in place by every construction with a cache directory.  A
    wrapper built without a cache directory spawns with [--cache-dir /c] once
    another wrapper has been built with it, and a second construction with
    the same arguments finds the flag twice. *)
Theorem global_pip_args_shared to_text os_path_expandvars os_path_expanduser
    environ stat popen :
  let init := __init__ os_path_expandvars os_path_expanduser in
  let st0 := class_defined environ stat popen in
  let w1 := (init (u "/a") None st0).1 in
  let st1 := (init (u "/a") None st0).2 in
  let w2 := (init (u "/b") (Some (u "/c")) st1).1 in
  let st2 := (init (u "/b") (Some (u "/c")) st1).2 in
  let w3 := (init (u "/b") (Some (u "/c")) st2).1 in
  let st3 := (init (u "/b") (Some (u "/c")) st2).2 in
  let c := os_path_expanduser environ (os_path_expandvars environ (u "/c")) in
  spawned (_execute to_text w1 [u "list"] st1).2
    = [mkPopenCall [u "bin/pip"; u "--disable-pip-version-check"; u "list"]
         (u "/a") environ] ∧
  spawned (_execute to_text w1 [u "list"] st2).2
    = [mkPopenCall [u "bin/pip"; u "--disable-pip-version-check";
                    u "--cache-dir"; c; u "list"]
         (u "/a") environ] ∧
  load st2 (getattr_global_pip_args w2)
    = [u "--disable-pip-version-check"; u "--cache-dir"; c] ∧
  load st3 (getattr_global_pip_args w3)
    = [u "--disable-pip-version-check"; u "--cache-dir"; c; u "--cache-dir"; c].
Proof.
  cbv zeta. rewrite !_execute_spawned. repeat split.
Qed.

(** ** The mapping returned by [search] *)

Lemma search_zero to_text self term st stdout stderr out err :
  os_popen st (_execute_call self [u "search"; term] st) = Popen_exited 0 stdout stderr →
  to_text (bytes_strip stdout) = Some out →
  to_text (bytes_strip stderr) = Some err →
  (search to_text self term st).1 = inr (search_parse out).
Proof.
  intros Hp Ho He. unfold search. cbv zeta.
  by rewrite (_execute_zero to_text _ _ _ _ _ Hp),
             (_execute_else_decoded to_text _ _ _ _ Ho He).
Qed.

Lemma search_parse_entries stdout name value :
  search_parse stdout !! name = Some value ↔
  ∃ pre line post,
    str_split (u LF) stdout = pre ++ line :: post ∧
    line_entry line name value ∧
    Forall (λ l, ∀ v, ¬ line_entry l name v) post.
Proof.
  rewrite search_parse_lookup. unfold names.
  split; intros (pre & line & post & Hsplit & He & Hpost);
    exists pre, line, post; (split; [done|]); (split; [by apply search_entry_spec|]).
  - eapply Forall_impl; [done|]. intros l Hl v Hv. apply Hl. exists v.
    by apply search_entry_spec.
  - eapply Forall_impl; [done|]. intros l Hl [v Hv]. apply (Hl v).
    by apply search_entry_spec.
Qed.

(** C4.  [search] splits the decoded standard output at line feeds; a line
    contributes to the mapping only if it holds [' - '] and the text before
    the first [' - '], trimmed, is not empty; it is then stored under that
    trimmed name with the text after the separator, cut before the first
    ['<br'] if there is one, and trimmed; of several lines with one name the
    last is the one kept.  On the three-line example the mapping is
    [{foo: bar baz, qux: quux}], and on the empty string it is empty. *)
Theorem search_parses_lines to_text :
  (∀ self term st stdout stderr out err,
     os_popen st (_execute_call self [u "search"; term] st)
       = Popen_exited 0 stdout stderr →
     to_text (bytes_strip stdout) = Some out →
     to_text (bytes_strip stderr) = Some err →
     (search to_text self term st).1 = inr (search_parse out)) ∧
  (∀ stdout,
     str_join (u LF) (str_split (u LF) stdout) = stdout ∧
     Forall (λ line, ¬ occurs (u LF) line) (str_split (u LF) stdout)) ∧
  (∀ stdout name value,
     search_parse stdout !! name = Some value ↔
     ∃ pre line post,
       str_split (u LF) stdout = pre ++ line :: post ∧
       line_entry line name value ∧
       Forall (λ l, ∀ v, ¬ line_entry l name v) post) ∧
  (∀ packages line,
     ¬ occurs (u " - ") line → search_step packages line = packages) ∧
  (∀ packages line raw_name description,
     first_cut (u " - ") line raw_name description → str_strip raw_name = [] →
     search_step packages line = packages) ∧
  (∀ raw,
     ∃ l r, raw = l ++ str_strip raw ++ r ∧
            Forall (λ c, isspace c = true) l ∧ Forall (λ c, isspace c = true) r ∧
            (∀ c, head (str_strip raw) = Some c → isspace c = false) ∧
            (∀ c, last (str_strip raw) = Some c → isspace c = false)) ∧
  search_parse
    (u ("foo - bar baz" ++ LF ++ "no-separator-line" ++ LF ++ "qux - quux<br>extra"))
    = {[ u "foo" := u "bar baz"; u "qux" := u "quux" ]} ∧
  search_parse ([]) = ∅.
Proof.
  split; [apply search_zero|].
  split; [intros stdout; by apply str_split_spec|].
  split; [apply search_parse_entries|].
  split; [intros packages line Hno; unfold search_step;
          by rewrite search_entry_no_separator|].
  split; [intros packages line raw_name description Hcut Hnil; unfold search_step;
          by rewrite (search_entry_empty_name _ _ _ Hcut Hnil)|].
  split; [intros raw; apply strip_spec|].
  split; vm_compute; reflexivity.
Qed.

Lemma search_parses_lines_witness :
  (search sample_to_text sample_wrapper (u "foo")
     (sample_world
        (Popen_exited 0
           (bs ("foo - bar baz" ++ LF ++ "no-separator-line" ++ LF
                ++ "qux - quux<br>extra" ++ LF))
           []))).1
  = inr {[ u "foo" := u "bar baz"; u "qux" := u "quux" ]}.
Proof.
  etransitivity.
  - apply (proj1 (search_parses_lines sample_to_text) sample_wrapper (u "foo") _
             (bs ("foo - bar baz" ++ LF ++ "no-separator-line" ++ LF
                  ++ "qux - quux<br>extra" ++ LF))
             []
             (u ("foo - bar baz" ++ LF ++ "no-separator-line" ++ LF
                 ++ "qux - quux<br>extra"))
             []).
    + reflexivity.
    + vm_compute. reflexivity.
    + reflexivity.
  - vm_compute. reflexivity.
Defined.

Lemma map_to_list_key_once (m : gmap text text) k v :
  m !! k = Some v →
  filter (λ kv, kv.1 = k) (map_to_list m) = [(k, v)].
Proof.
  intros Hm.
  assert (NoDup (filter (λ kv : text * text, kv.1 = k) (map_to_list m))) as Hnd
    by apply NoDup_filter, NoDup_map_to_list.
  assert (∀ x, x ∈ filter (λ kv : text * text, kv.1 = k) (map_to_list m) → x = (k, v))
    as Hall.
  { intros [k' v'] Hx. apply list_elem_of_filter in Hx as [Hk Hx]. simpl in Hk.
    subst k'. apply elem_of_map_to_list in Hx. congruence. }
  assert ((k, v) ∈ filter (λ kv : text * text, kv.1 = k) (map_to_list m)) as Hin
    by (apply list_elem_of_filter; split; [done | by apply elem_of_map_to_list]).
  destruct (filter _ _) as [|x [|y l]].
  - by apply elem_of_nil in Hin.
  - f_equal. apply Hall. by left.
  - exfalso. rewrite (Hall x), (Hall y) in Hnd by (by repeat constructor).
    apply NoDup_cons in Hnd as [Hx _]. apply Hx. by left.
Qed.

(** C10.  When several lines of the decoded search output give the same
    trimmed name, the returned mapping has that name exactly once, with the
    description of the last of them: a line that gives [name] and is
    followed by no other line giving [name] decides the entry, whatever
    the lines before it give. *)
Theorem search_last_line_wins to_text self term st stdout stderr out err
    pre line post name value :
  os_popen st (_execute_call self [u "search"; term] st)
    = Popen_exited 0 stdout stderr →
  to_text (bytes_strip stdout) = Some out →
  to_text (bytes_strip stderr) = Some err →
  str_split os_linesep out = pre ++ line :: post →
  search_entry line = Some (name, value) →
  Forall (λ l, ¬ names name l) post →
  ∃ packages,
    (search to_text self term st).1 = inr packages ∧
    packages !! name = Some value ∧
    filter (λ kv, kv.1 = name) (map_to_list packages) = [(name, value)].
Proof.
  intros Hp Ho Herr Hsplit He Hpost. eexists.
  split; [by apply search_zero with stdout stderr err|].
  assert (search_parse out !! name = Some value) as Hm
    by (apply search_parse_lookup; exists pre, line, post; done).
  split; [done | by apply map_to_list_key_once].
Qed.

Lemma search_last_line_wins_witness :
  ∃ packages,
    (search sample_to_text sample_wrapper (u "pkg")
       (sample_world
          (Popen_exited 0 (bs ("pkg - first" ++ LF ++ "pkg  - second" ++ LF)) []))).1
    = inr packages ∧
    packages !! u "pkg" = Some (u "second") ∧
    filter (λ kv, kv.1 = u "pkg") (map_to_list packages) = [(u "pkg", u "second")].
Proof.
  apply (search_last_line_wins sample_to_text sample_wrapper (u "pkg") _
           (bs ("pkg - first" ++ LF ++ "pkg  - second" ++ LF)) []
           (u ("pkg - first" ++ LF ++ "pkg  - second")) []
           [u "pkg - first"] (u "pkg  - second") [] (u "pkg") (u "second")).
  - reflexivity.
  - vm_compute. reflexivity.
  - reflexivity.
  - vm_compute. reflexivity.
  - vm_compute. reflexivity.
  - constructor.
Defined.

(** * Further properties of the wrapper *)

(** ** What else the methods return and raise *)

(** X1.  [search] has no handler of its own: when the subprocess exits with
    a non-zero code, the [CalledProcessError] of [_execute] leaves [search]
    as it is, with the exit code, the command ['bin/pip'] and the captured
    standard output. *)
Theorem search_nonzero_raises_generic to_text self term st returncode stdout stderr :
  os_popen st (_execute_call self [u "search"; term] st)
    = Popen_exited returncode stdout stderr →
  returncode ≠ 0 →
  (search to_text self term st).1
  = inl (CalledProcessError returncode (u "bin/pip") (OutputBytes stdout)).
Proof.
  intros Hp Hrc. unfold search. cbv zeta.
  by rewrite (_execute_nonzero to_text _ _ _ _ _ _ Hp Hrc).
Qed.

Lemma search_nonzero_raises_generic_witness :
  (search sample_to_text sample_wrapper (u "six")
     (sample_world (Popen_exited 23 (bs "no network") (bs "ERROR")))).1
  = inl (CalledProcessError 23 (u "bin/pip") (OutputBytes (bs "no network"))).
Proof.
  apply (search_nonzero_raises_generic sample_to_text sample_wrapper (u "six") _
           23 (bs "no network") (bs "ERROR")).
  - reflexivity.
  - discriminate.
Defined.

(** X2.  When the subprocess exits with code 0 and both captured streams,
    stripped of white space, can be decoded, [uninstall] and [wheel] return
    the pair of the decoded texts; when one of them cannot be decoded, the
    [UnicodeDecodeError] of the decoder leaves them, as it leaves [search]. *)
Theorem uninstall_wheel_zero_return to_text self package_name options term
    stdout stderr :
  (∀ st,
     os_popen st (_execute_call self [u "uninstall"; u "-y"; package_name] st)
       = Popen_exited 0 stdout stderr →
     (∀ out err,
        to_text (bytes_strip stdout) = Some out →
        to_text (bytes_strip stderr) = Some err →
        (uninstall to_text self package_name st).1 = inr (out, err)) ∧
     (to_text (bytes_strip stdout) = None ∨ to_text (bytes_strip stderr) = None →
      (uninstall to_text self package_name st).1 = inl UnicodeDecodeError)) ∧
  (∀ st,
     os_popen st (_execute_call self ([u "wheel"; package_name] ++ default [] options) st)
       = Popen_exited 0 stdout stderr →
     (∀ out err,
        to_text (bytes_strip stdout) = Some out →
        to_text (bytes_strip stderr) = Some err →
        (wheel to_text self package_name options st).1 = inr (out, err)) ∧
     (to_text (bytes_strip stdout) = None ∨ to_text (bytes_strip stderr) = None →
      (wheel to_text self package_name options st).1 = inl UnicodeDecodeError)) ∧
  (∀ st,
     os_popen st (_execute_call self [u "search"; term] st)
       = Popen_exited 0 stdout stderr →
     to_text (bytes_strip stdout) = None ∨ to_text (bytes_strip stderr) = None →
     (search to_text self term st).1 = inl UnicodeDecodeError).
Proof.
  split; [|split].
  - intros st Hp. unfold uninstall. cbv zeta.
    rewrite (_execute_zero to_text _ _ _ _ _ Hp). split.
    + intros out err Ho He. by rewrite (_execute_else_decoded to_text _ _ _ _ Ho He).
    + intros Hnone. by rewrite (_execute_else_undecodable to_text _ _ Hnone).
  - intros st Hp. unfold wheel. cbv zeta.
    rewrite (_execute_zero to_text _ _ _ _ _ Hp). split.
    + intros out err Ho He. by rewrite (_execute_else_decoded to_text _ _ _ _ Ho He).
    + intros Hnone. by rewrite (_execute_else_undecodable to_text _ _ Hnone).
  - intros st Hp Hnone. unfold search. cbv zeta.
    by rewrite (_execute_zero to_text _ _ _ _ _ Hp),
               (_execute_else_undecodable to_text _ _ Hnone).
Qed.

Lemma uninstall_wheel_zero_return_witness :
  (uninstall sample_to_text sample_wrapper (u "six")
     (sample_world (Popen_exited 0 (bs ("  removed" ++ LF)) (bs " ")))).1
  = inr (u "removed", []) ∧
  (wheel sample_to_text sample_wrapper (u "six") (Some [u "-w"; u "dist"])
     (sample_world (Popen_exited 0 (bs ("  removed" ++ LF)) (bs " ")))).1
  = inr (u "removed", []) ∧
  (uninstall sample_to_text sample_wrapper (u "six")
     (sample_world (Popen_exited 0 [] [Byte.xc3]))).1
  = inl UnicodeDecodeError.
Proof.
  pose proof (uninstall_wheel_zero_return sample_to_text sample_wrapper (u "six")
                (Some [u "-w"; u "dist"]) (u "six") (bs ("  removed" ++ LF)) (bs " "))
    as (Hu & Hw & _).
  pose proof (uninstall_wheel_zero_return sample_to_text sample_wrapper (u "six")
                None (u "six") [] [Byte.xc3])
    as (Hu' & _).
  split; [|split].
  - apply (Hu (sample_world (Popen_exited 0 (bs ("  removed" ++ LF)) (bs " "))));
      reflexivity.
  - apply (Hw (sample_world (Popen_exited 0 (bs ("  removed" ++ LF)) (bs " "))));
      reflexivity.
  - apply (Hu' (sample_world (Popen_exited 0 [] [Byte.xc3]))); [reflexivity|].
    right. reflexivity.
Defined.

Lemma _execute_result to_text self args st :
  (_execute to_text self args st).1
  = match os_popen st (_execute_call self args st) with
    | Popen_OSError e =>
        inl (OSError (os_path_join (path self) (u "bin/pip") ++ u ": " ++ e))
    | Popen_ValueError e => inl (ValueError e)
    | Popen_exited returncode stdout stderr =>
        if bool_decide (returncode ≠ 0)
        then inl (CalledProcessError returncode (u "bin/pip") (OutputBytes stdout))
        else _execute_else to_text stdout stderr
    end.
Proof.
  destruct (os_popen st (_execute_call self args st)) as [e|e|rc out err] eqn:Hp.
  - by rewrite (_execute_oserror to_text _ _ _ _ Hp).
  - by rewrite (_execute_valueerror to_text _ _ _ _ Hp).
  - case_bool_decide as Hrc.
    + by rewrite (_execute_nonzero to_text _ _ _ _ _ _ Hp Hrc).
    + subst rc. by rewrite (_execute_zero to_text _ _ _ _ _ Hp).
Qed.

Lemma install_result to_text self package_name options st :
  (install to_text self package_name options st).1
  = match (_execute to_text self ([u "install"; package_name] ++ default [] options) st).1 with
    | inl (CalledProcessError returncode _ output) =>
        inl (PackageInstallationException (returncode, output, package_name))
    | r => r
    end.
Proof. unfold install. cbv zeta. by destruct (_execute _ _ _ _) as [[[]|] ?]. Qed.

Lemma uninstall_result to_text self package_name st :
  (uninstall to_text self package_name st).1
  = match (_execute to_text self [u "uninstall"; u "-y"; package_name] st).1 with
    | inl (CalledProcessError returncode _ output) =>
        inl (PackageRemovalException (returncode, output, package_name))
    | r => r
    end.
Proof. unfold uninstall. cbv zeta. by destruct (_execute _ _ _ _) as [[[]|] ?]. Qed.

Lemma wheel_result to_text self package_name options st :
  (wheel to_text self package_name options st).1
  = match (_execute to_text self ([u "wheel"; package_name] ++ default [] options) st).1 with
    | inl (CalledProcessError returncode _ output) =>
        inl (PackageWheelException (returncode, output, package_name))
    | r => r
    end.
Proof. unfold wheel. cbv zeta. by destruct (_execute _ _ _ _) as [[[]|] ?]. Qed.

Lemma search_result to_text self term st :
  (search to_text self term st).1
  = match (_execute to_text self [u "search"; term] st).1 with
    | inl e => inl e
    | inr (stdout, _) => inr (search_parse stdout)
    end.
Proof. unfold search. cbv zeta. by destruct (_execute _ _ _ _) as [[|[]] ?]. Qed.

(** X3.  What a failure of a method tells.  A package exception raised by
    [install], [uninstall] or [wheel] means that the subprocess ran and
    exited with the non-zero code it holds, and it holds the captured
    standard output and the name the method was given; a
    [CalledProcessError] raised by [search] means the same, with the command
    ['bin/pip'].  No method raises the package exception of another method,
    and [install] never raises a [CalledProcessError]. *)
Theorem method_failures_meaning to_text self package_name options term st :
  (∀ payload,
     (install to_text self package_name options st).1
       = inl (PackageInstallationException payload) →
     ∃ returncode stdout stderr,
       returncode ≠ 0 ∧
       os_popen st (_execute_call self ([u "install"; package_name] ++ default [] options) st)
         = Popen_exited returncode stdout stderr ∧
       payload = (returncode, OutputBytes stdout, package_name)) ∧
  (∀ payload,
     (uninstall to_text self package_name st).1
       = inl (PackageRemovalException payload) →
     ∃ returncode stdout stderr,
       returncode ≠ 0 ∧
       os_popen st (_execute_call self [u "uninstall"; u "-y"; package_name] st)
         = Popen_exited returncode stdout stderr ∧
       payload = (returncode, OutputBytes stdout, package_name)) ∧
  (∀ payload,
     (wheel to_text self package_name options st).1
       = inl (PackageWheelException payload) →
     ∃ returncode stdout stderr,
       returncode ≠ 0 ∧
       os_popen st (_execute_call self ([u "wheel"; package_name] ++ default [] options) st)
         = Popen_exited returncode stdout stderr ∧
       payload = (returncode, OutputBytes stdout, package_name)) ∧
  (∀ returncode cmd output,
     (search to_text self term st).1 = inl (CalledProcessError returncode cmd output) →
     ∃ stdout stderr,
       returncode ≠ 0 ∧
       os_popen st (_execute_call self [u "search"; term] st)
         = Popen_exited returncode stdout stderr ∧
       cmd = u "bin/pip" ∧ output = OutputBytes stdout) ∧
  (∀ payload returncode cmd output,
     (install to_text self package_name options st).1
       ≠ inl (PackageRemovalException payload) ∧
     (install to_text self package_name options st).1
       ≠ inl (PackageWheelException payload) ∧
     (install to_text self package_name options st).1
       ≠ inl (CalledProcessError returncode cmd output) ∧
     (uninstall to_text self package_name st).1
       ≠ inl (PackageInstallationException payload) ∧
     (uninstall to_text self package_name st).1
       ≠ inl (PackageWheelException payload) ∧
     (wheel to_text self package_name options st).1
       ≠ inl (PackageInstallationException payload) ∧
     (wheel to_text self package_name options st).1
       ≠ inl (PackageRemovalException payload) ∧
     (search to_text self term st).1 ≠ inl (PackageInstallationException payload) ∧
     (search to_text self term st).1 ≠ inl (PackageRemovalException payload) ∧
     (search to_text self term st).1 ≠ inl (PackageWheelException payload)).
Proof.
  assert (∀ stdout stderr e,
            _execute_else to_text stdout stderr = inl e → e = UnicodeDecodeError)
    as Helse.
  { intros stdout stderr e He.
    destruct (_execute_else_cases to_text stdout stderr) as [Hd | (o & r & _ & _ & Hd)];
      rewrite Hd in He; by simplify_eq. }
  split; [|split; [|split; [|split]]].
  - intros payload. rewrite install_result, _execute_result.
    destruct (os_popen st _) as [e|e|rc out err]; [done|done|].
    case_bool_decide as Hrc.
    + intros [= <-]. by exists rc, out, err.
    + destruct (_execute_else to_text out err) as [x|] eqn:He; [|done].
      by rewrite (Helse _ _ _ He).
  - intros payload. rewrite uninstall_result, _execute_result.
    destruct (os_popen st _) as [e|e|rc out err]; [done|done|].
    case_bool_decide as Hrc.
    + intros [= <-]. by exists rc, out, err.
    + destruct (_execute_else to_text out err) as [x|] eqn:He; [|done].
      by rewrite (Helse _ _ _ He).
  - intros payload. rewrite wheel_result, _execute_result.
    destruct (os_popen st _) as [e|e|rc out err]; [done|done|].
    case_bool_decide as Hrc.
    + intros [= <-]. by exists rc, out, err.
    + destruct (_execute_else to_text out err) as [x|] eqn:He; [|done].
      by rewrite (Helse _ _ _ He).
  - intros returncode cmd output. rewrite search_result, _execute_result.
    destruct (os_popen st _) as [e|e|rc out err]; [done|done|].
    case_bool_decide as Hrc.
    + intros [= <- <- <-]. by exists out, err.
    + destruct (_execute_else to_text out err) as [x|[o r]] eqn:He; [|done].
      by rewrite (Helse _ _ _ He).
  - intros payload returncode cmd output.
    rewrite install_result, uninstall_result, wheel_result, search_result.
    rewrite !_execute_result.
    repeat split.
    all: try rewrite _execute_result;
      destruct (os_popen st _) as [e|e|rc out err]; [done|done|];
      (case_bool_decide as Hrc; [done|]);
      destruct (_execute_else to_text out err) as [x|[o r]] eqn:He; [|done];
      by rewrite (Helse _ _ _ He).
Qed.

(** ** What the methods do to the world *)

Section Effects.
Variable to_text : bytes → option text.
Variable os_path_expandvars : Env → text → text.
Variable os_path_expanduser : Env → text → text.

Local Abbreviation init := (__init__ os_path_expandvars os_path_expanduser).
Local Abbreviation steps := (rtc (step to_text os_path_expandvars os_path_expanduser)).

Lemma _execute_printed self args st :
  printed (_execute to_text self args st).2
  = match os_popen st (_execute_call self args st) with
    | Popen_exited returncode stdout stderr =>
        if bool_decide (returncode ≠ 0) then printed st ++ [(stdout, stderr)]
        else printed st
    | Popen_OSError _ | Popen_ValueError _ => printed st
    end.
Proof.
  unfold _execute, _execute_try. cbv zeta. cbn [os_popen record_spawn].
  destruct (os_popen st _) as [e|e|rc out err]; [done|done|].
  by case_bool_decide.
Qed.

Lemma _execute_os self args st :
  os_environ (_execute to_text self args st).2 = os_environ st ∧
  os_stat (_execute to_text self args st).2 = os_stat st ∧
  os_popen (_execute to_text self args st).2 = os_popen st.
Proof.
  unfold _execute, _execute_try. cbv zeta. cbn [os_popen record_spawn].
  destruct (os_popen st _) as [e|e|rc out err]; [done|done|].
  by case_bool_decide.
Qed.

(** What a world [st'] may differ in from the world [st] one call earlier. *)
Lemma _execute_frame self args st :
  heap (_execute to_text self args st).2 = heap st ∧
  os_environ (_execute to_text self args st).2 = os_environ st ∧
  os_stat (_execute to_text self args st).2 = os_stat st ∧
  os_popen (_execute to_text self args st).2 = os_popen st ∧
  length (spawned (_execute to_text self args st).2) = S (length (spawned st)) ∧
  (printed (_execute to_text self args st).2 = printed st ∨
   ∃ out, printed (_execute to_text self args st).2 = printed st ++ [out]).
Proof.
  destruct (_execute_os self args st) as (He & Hs & Hp).
  repeat split; try done.
  - apply _execute_heap.
  - rewrite _execute_spawned, length_app. simpl. lia.
  - rewrite _execute_printed.
    destruct (os_popen st _) as [e|e|rc out err]; [by left|by left|].
    case_bool_decide; [right; eauto | by left].
Qed.

(** X4.  The captured streams go to the diagnostic channel exactly when the
    subprocess exits with a non-zero code: [_execute] then prints the pair
    (stdout, stderr) once, before it raises; it prints nothing when the exit
    code is 0 and nothing when the spawn fails, with an [OSError] or with a
    [ValueError]. *)
Theorem diagnostics_on_failure_only self args st :
  (∀ returncode stdout stderr,
     os_popen st (_execute_call self args st) = Popen_exited returncode stdout stderr →
     returncode ≠ 0 →
     printed (_execute to_text self args st).2 = printed st ++ [(stdout, stderr)]) ∧
  (∀ stdout stderr,
     os_popen st (_execute_call self args st) = Popen_exited 0 stdout stderr →
     printed (_execute to_text self args st).2 = printed st) ∧
  (∀ e,
     os_popen st (_execute_call self args st) = Popen_OSError e →
     printed (_execute to_text self args st).2 = printed st) ∧
  (∀ e,
     os_popen st (_execute_call self args st) = Popen_ValueError e →
     printed (_execute to_text self args st).2 = printed st).
Proof.
  split; [|split; [|split]].
  - intros rc out err Hp Hrc. rewrite _execute_printed, Hp.
    by rewrite bool_decide_true.
  - intros out err Hp. by rewrite _execute_printed, Hp.
  - intros e Hp. by rewrite _execute_printed, Hp.
  - intros e Hp. by rewrite _execute_printed, Hp.
Qed.

(** X5.  A call of [install], [uninstall], [wheel] or [search] makes
    exactly one [Popen] call, the one [_execute] builds from the arguments of
    the method, and prints at most one entry; it writes neither the
    class-level flag list nor any other list, and does not touch
    [os.environ]. *)
Theorem methods_frame self package_name options term st :
  Forall
    (λ '(args, st'),
       heap st' = heap st ∧ os_environ st' = os_environ st ∧
       spawned st' = spawned st ++ [_execute_call self args st] ∧
       (printed st' = printed st ∨ ∃ out, printed st' = printed st ++ [out]))
    [ ([u "install"; package_name] ++ default [] options,
       (install to_text self package_name options st).2);
      ([u "uninstall"; u "-y"; package_name],
       (uninstall to_text self package_name st).2);
      ([u "wheel"; package_name] ++ default [] options,
       (wheel to_text self package_name options st).2);
      ([u "search"; term],
       (search to_text self term st).2) ].
Proof.
  assert (∀ args,
            heap (_execute to_text self args st).2 = heap st ∧
            os_environ (_execute to_text self args st).2 = os_environ st ∧
            spawned (_execute to_text self args st).2
              = spawned st ++ [_execute_call self args st] ∧
            (printed (_execute to_text self args st).2 = printed st ∨
             ∃ out, printed (_execute to_text self args st).2 = printed st ++ [out]))
    as Hexec.
  { intros args. destruct (_execute_frame self args st) as (Hh & He & _ & _ & _ & Hp).
    split; [done|]. split; [done|]. split; [apply _execute_spawned | done]. }
  rewrite install_world, uninstall_world, wheel_world, search_world.
  repeat (constructor 2; [apply Hexec|]). constructor 1.
Qed.

(** X6.  Constructing a wrapper spawns nothing and prints nothing, and
    leaves the operating system alone.  Without a cache directory it leaves
    the whole world as it was; with one, the only list it touches is the one
    bound to the class attribute. *)
Theorem init_frame root cache st :
  spawned (init root cache st).2 = spawned st ∧
  printed (init root cache st).2 = printed st ∧
  os_environ (init root cache st).2 = os_environ st ∧
  os_stat (init root cache st).2 = os_stat st ∧
  os_popen (init root cache st).2 = os_popen st ∧
  (cache = None → (init root cache st).2 = st) ∧
  (∀ l, l ≠ PipWrapper_global_pip_args →
        heap (init root cache st).2 !! l = heap st !! l).
Proof.
  destruct cache as [dir|]; repeat split; try done.
  intros l Hl. cbn [__init__ snd list_iadd heap]. by rewrite lookup_alter_ne.
Qed.

(** The class-level list is the version-check flag followed by one
    [--cache-dir] pair per construction with a cache directory. *)
Lemma step_flags_shape st st' dirs :
  step to_text os_path_expandvars os_path_expanduser st st' →
  is_Some (heap st !! PipWrapper_global_pip_args) →
  class_flags st
    = u "--disable-pip-version-check" :: (dirs ≫= λ d, [u "--cache-dir"; d]) →
  ∃ dirs', class_flags st'
    = u "--disable-pip-version-check" :: (dirs' ≫= λ d, [u "--cache-dir"; d]).
Proof.
  intros Hstep Hsome Hshape.
  assert (∀ w, heap w = heap st →
               ∃ dirs', class_flags w
                 = u "--disable-pip-version-check" :: (dirs' ≫= λ d, [u "--cache-dir"; d]))
    as Hsame.
  { intros w Hw. exists dirs. unfold class_flags, load in *. by rewrite Hw. }
  destruct Hstep as [p [dir|] st | | | | | | ]; try (apply Hsame; done).
  - exists (dirs ++ [os_path_expanduser (os_environ st)
                       (os_path_expandvars (os_environ st) dir)]).
    rewrite init_class_flags by done. rewrite Hshape, bind_app. reflexivity.
  - apply Hsame. by rewrite install_world, _execute_heap.
  - apply Hsame. by rewrite uninstall_world, _execute_heap.
  - apply Hsame. by rewrite wheel_world, _execute_heap.
  - apply Hsame. by rewrite search_world, _execute_heap.
Qed.

(** X7.  In every world the program can reach, the class-level flag list is
    [--disable-pip-version-check] followed by a sequence of pairs
    [--cache-dir], directory: a [--cache-dir] is never left without its
    directory, and nothing else is ever put in the list. *)
Theorem reachable_flags_shape st :
  reachable to_text os_path_expandvars os_path_expanduser st →
  ∃ dirs, class_flags st
    = u "--disable-pip-version-check" :: (dirs ≫= λ d, [u "--cache-dir"; d]).
Proof.
  intros (environ & stat & popen & Hsteps).
  assert (∀ a b, steps a b →
            (is_Some (heap a !! PipWrapper_global_pip_args) ∧
             ∃ dirs, class_flags a
               = u "--disable-pip-version-check" :: (dirs ≫= λ d, [u "--cache-dir"; d])) →
            ∃ dirs, class_flags b
              = u "--disable-pip-version-check" :: (dirs ≫= λ d, [u "--cache-dir"; d]))
    as Hgen.
  { induction 1 as [a|a a1 a2 Hstep _ IH]; intros [Hsome [dirs Hshape]]; [eauto|].
    apply IH. split.
    - by apply (step_class_flags _ _ _ _ _ Hstep).
    - by apply (step_flags_shape _ _ dirs Hstep). }
  apply (Hgen _ _ Hsteps). split; [done | by exists []].
Qed.



End Effects.

Lemma diagnostics_on_failure_only_witness :
  printed (_execute sample_to_text sample_wrapper [u "install"; u "six"]
             (sample_world (Popen_exited 1 (bs "out") (bs "err")))).2
  = [(bs "out", bs "err")].
Proof.
  apply (proj1 (diagnostics_on_failure_only sample_to_text sample_wrapper
                  [u "install"; u "six"]
                  (sample_world (Popen_exited 1 (bs "out") (bs "err"))))
           1 (bs "out") (bs "err")).
  - reflexivity.
  - discriminate.
Defined.

Lemma init_frame_witness :
  (__init__ sample_expand sample_expand (u "/env") None
     (sample_world (Popen_exited 0 [] []))).2
  = sample_world (Popen_exited 0 [] []) ∧
  heap (__init__ sample_expand sample_expand (u "/env") (Some (u "/c"))
          (sample_world (Popen_exited 0 [] []))).2 !! 1%nat
  = heap (sample_world (Popen_exited 0 [] [])) !! 1%nat.
Proof.
  split.
  - apply (init_frame sample_expand sample_expand (u "/env") None
             (sample_world (Popen_exited 0 [] []))).
    reflexivity.
  - apply (init_frame sample_expand sample_expand (u "/env") (Some (u "/c"))
             (sample_world (Popen_exited 0 [] []))).
    discriminate.
Defined.

Lemma sample_reachable :
  reachable sample_to_text sample_expand sample_expand
    (__init__ sample_expand sample_expand (u "/env") (Some (u "/c"))
       (install sample_to_text sample_wrapper (u "six") None
          (sample_world (Popen_exited 1 (bs "out") (bs "err")))).2).2.
Proof.
  exists ∅, sample_stat, (sample_popen (Popen_exited 1 (bs "out") (bs "err"))).
  eapply rtc_l; [apply (step_install _ _ _ sample_wrapper (u "six") None)|].
  eapply rtc_l; [apply (step_init _ _ _ (u "/env") (Some (u "/c")))|].
  apply rtc_refl.
Defined.

Lemma reachable_flags_shape_witness :
  ∃ dirs,
    class_flags
      (__init__ sample_expand sample_expand (u "/env") (Some (u "/c"))
         (install sample_to_text sample_wrapper (u "six") None
            (sample_world (Popen_exited 1 (bs "out") (bs "err")))).2).2
    = u "--disable-pip-version-check" :: (dirs ≫= λ d, [u "--cache-dir"; d]).
Proof.
  apply (reachable_flags_shape sample_to_text sample_expand sample_expand).
  apply sample_reachable.
Defined.


(** ** More on the mapping returned by [search] *)

Lemma occurs_char c s : occurs [c] s ↔ c ∈ s.
Proof.
  split.
  - intros (x & y & ->). set_solver.
  - intros (x & y & ->)%list_elem_of_split. by exists x, y.
Qed.

Lemma first_cut_char c s before after :
  s = before ++ c :: after → c ∉ before → first_cut [c] s before after.
Proof.
  intros -> Hc. split; [done|]. intros b' a' Hcut. unfold cut_at in Hcut.
  destruct (decide (length before ≤ length b')%nat) as [|Hlt]; [done|].
  exfalso. apply Hc. apply (list_elem_of_lookup_2 _ (length b')).
  rewrite <- (lookup_app_l before (c :: after)) by lia.
  rewrite Hcut. simpl. by apply list_lookup_middle.
Qed.

Lemma str_split_char_app c a b :
  str_split [c] (a ++ c :: b) = str_split [c] a ++ str_split [c] b.
Proof.
  remember (length a) as n eqn:Hn. revert a Hn.
  induction n as [n IH] using lt_wf_ind. intros a ->.
  rewrite (str_split_unfold [c] (a ++ c :: b)), (str_split_unfold [c] a) by done.
  destruct (str_split1_cases [c] a) as [[Ha Hno] | (x & y & Ha & Hcut)]; rewrite Ha.
  - assert (first_cut [c] (a ++ c :: b) a b) as Hfirst
      by (apply first_cut_char; [done | by rewrite <- occurs_char]).
    apply str_split1_found in Hfirst. by rewrite Hfirst.
  - assert (c ∉ x) as Hx
      by (rewrite <- occurs_char; by eapply first_cut_before_free).
    destruct Hcut as [Hcut _]. unfold cut_at in Hcut. simpl in Hcut.
    assert (first_cut [c] (a ++ c :: b) x (y ++ c :: b)) as Hfirst.
    { apply first_cut_char; [|done]. rewrite Hcut, <- app_assoc. done. }
    apply str_split1_found in Hfirst. rewrite Hfirst. simpl. f_equal.
    apply (IH (length y)); [|done].
    rewrite Hcut, length_app. simpl. lia.
Qed.

Lemma search_step_union packages line :
  search_step packages line = search_step ∅ line ∪ packages.
Proof.
  unfold search_step. destruct (search_entry line) as [[n v]|].
  - by rewrite <- insert_union_l, (left_id_L ∅ (∪)).
  - by rewrite (left_id_L ∅ (∪)).
Qed.

Lemma foldl_search_step_union lines packages :
  foldl search_step packages lines = foldl search_step ∅ lines ∪ packages.
Proof.
  revert packages. induction lines as [|l lines IH]; intros packages; simpl.
  - by rewrite (left_id_L ∅ (∪)).
  - rewrite (IH (search_step packages l)), (IH (search_step ∅ l)).
    rewrite (search_step_union packages l). by rewrite (assoc_L (∪)).
Qed.

(** X9.  Parsing two outputs put one after the other, with a line feed
    between them, gives the union of the two mappings in which the entries
    of the second output win. *)
Theorem search_parse_app first second :
  search_parse (first ++ u LF ++ second)
  = search_parse second ∪ search_parse first.
Proof.
  unfold search_parse. change os_linesep with [10%N]. change (u LF) with [10%N].
  simpl app at 2. rewrite str_split_char_app, foldl_app.
  apply foldl_search_step_union.
Qed.

Lemma occurs_within sep s x y : occurs sep s → occurs sep (x ++ s ++ y).
Proof.
  intros (p & q & ->). exists (x ++ p), (q ++ y). unfold cut_at.
  by rewrite <- !app_assoc.
Qed.

Lemma occurs_strip sep s : occurs sep (str_strip s) → occurs sep s.
Proof.
  intros Ho. destruct (strip_spec isspace s) as (l & r & Hs & _).
  rewrite Hs. by apply occurs_within.
Qed.

Lemma str_join_piece sep pieces line :
  line ∈ pieces → ∃ x y, str_join sep pieces = x ++ line ++ y.
Proof.
  induction pieces as [|p rest IH]; [by intros ?%elem_of_nil|].
  intros [->|Hin]%elem_of_cons.
  - destruct rest as [|q rest].
    + exists [], []. simpl. by rewrite app_nil_r.
    + exists [], (sep ++ str_join sep (q :: rest)). reflexivity.
  - destruct (IH Hin) as (x & y & Hxy). destruct rest as [|q rest].
    + by apply elem_of_nil in Hin.
    + exists (p ++ sep ++ x), y. cbn [str_join] in *. rewrite Hxy.
      by rewrite <- !app_assoc.
Qed.

Lemma occurs_in_line sep stdout line :
  line ∈ str_split (u LF) stdout → occurs sep line → occurs sep stdout.
Proof.
  intros Hin Ho.
  destruct (str_split_spec (u LF) stdout) as (_ & Hjoin & _); [done|].
  destruct (str_join_piece (u LF) _ _ Hin) as (x & y & Hxy).
  rewrite <- Hjoin, Hxy. by apply occurs_within.
Qed.

(** X10.  Every name in the mapping returned by the parser is non-empty,
    neither starts nor ends with white space, and holds neither the
    separator [' - '] nor a line feed; every description neither starts nor
    ends with white space and holds neither the marker ['<br'] nor a line
    feed. *)
Theorem search_parse_sanitized stdout name value :
  search_parse stdout !! name = Some value →
  (name ≠ [] ∧
   (∀ c, head name = Some c → isspace c = false) ∧
   (∀ c, last name = Some c → isspace c = false) ∧
   ¬ occurs (u " - ") name ∧ ¬ occurs (u LF) name) ∧
  ((∀ c, head value = Some c → isspace c = false) ∧
   (∀ c, last value = Some c → isspace c = false) ∧
   ¬ occurs (u "<br") value ∧ ¬ occurs (u LF) value).
Proof.
  intros (pre & line & post & Hsplit & Hentry & _)%search_parse_entries.
  destruct Hentry as (raw & description & kept & Hcut & -> & Hne & Htr & ->).
  assert (¬ occurs (u LF) line) as Hline.
  { destruct (str_split_spec (u LF) stdout) as (_ & _ & Hfree); [done|].
    rewrite Forall_forall in Hfree. apply Hfree. rewrite Hsplit. set_solver. }
  assert (line = [] ++ raw ++ (u " - " ++ description)) as Hraw
    by (destruct Hcut as [-> _]; done).
  assert (line = (raw ++ u " - ") ++ description ++ []) as Hdesc
    by (destruct Hcut as [-> _]; by rewrite app_nil_r, <- app_assoc).
  assert (¬ occurs (u "<br") kept ∧ ∃ rest, description = [] ++ kept ++ rest)
    as [Hkept [rest Hrest]].
  { destruct Htr as [[Hno ->] | [rest Hk]].
    - split; [done|]. exists []. by rewrite app_nil_r.
    - split; [by eapply first_cut_before_free|].
      exists (u "<br" ++ rest). by destruct Hk as [-> _]. }
  destruct (strip_spec isspace raw) as (_ & _ & _ & _ & _ & Hh1 & Hl1).
  destruct (strip_spec isspace kept) as (_ & _ & _ & _ & _ & Hh2 & Hl2).
  repeat split; try done.
  - intros Ho%occurs_strip.
    by apply (first_cut_before_free (u " - ") line raw description).
  - intros Ho%occurs_strip. apply Hline. rewrite Hraw. by apply occurs_within.
  - by intros Ho%occurs_strip.
  - intros Ho%occurs_strip. apply Hline. rewrite Hdesc. apply occurs_within.
    rewrite Hrest. by apply occurs_within.
Qed.

Lemma search_parse_sanitized_witness :
  (u "qux" ≠ [] ∧
   (∀ c, head (u "qux") = Some c → isspace c = false) ∧
   (∀ c, last (u "qux") = Some c → isspace c = false) ∧
   ¬ occurs (u " - ") (u "qux") ∧ ¬ occurs (u LF) (u "qux")) ∧
  ((∀ c, head (u "quux") = Some c → isspace c = false) ∧
   (∀ c, last (u "quux") = Some c → isspace c = false) ∧
   ¬ occurs (u "<br") (u "quux") ∧ ¬ occurs (u LF) (u "quux")).
Proof.
  apply (search_parse_sanitized
           (u ("foo - bar" ++ LF ++ "  qux  - quux <br>extra")) (u "qux") (u "quux")).
  vm_compute. reflexivity.
Defined.

Lemma foldl_search_step_size lines packages :
  (size (foldl search_step packages lines) ≤ size packages + length lines)%nat.
Proof.
  revert packages. induction lines as [|l lines IH]; intros packages; simpl; [lia|].
  etrans; [apply IH|].
  assert (size (search_step packages l) ≤ S (size packages))%nat; [|lia].
  unfold search_step. destruct (search_entry l) as [[n v]|]; [|lia].
  rewrite map_size_insert. destruct (packages !! n); simpl; lia.
Qed.

(** X11.  The mapping has at most one entry per line of the output. *)
Theorem search_parse_size stdout :
  (size (search_parse stdout) ≤ length (str_split os_linesep stdout))%nat.
Proof.
  unfold search_parse. etrans; [apply foldl_search_step_size|].
  by rewrite map_size_empty.
Qed.

(** X12.  An output in which [' - '] does not occur, such as a message in
    place of results, gives the empty mapping. *)
Theorem search_parse_no_separator stdout :
  ¬ occurs (u " - ") stdout → search_parse stdout = ∅.
Proof.
  intros Hno. apply map_empty. intros name.
  destruct (search_parse stdout !! name) as [value|] eqn:Hm; [|done].
  apply search_parse_entries in Hm
    as (pre & line & post & Hsplit & (raw & d & k & [Hcut _] & _) & _).
  destruct Hno. apply (occurs_in_line _ _ line).
  - rewrite Hsplit. set_solver.
  - by exists raw, d.
Qed.

Lemma search_parse_no_separator_witness :
  search_parse (u ("No matching packages" ++ LF ++ "found-at-all")) = ∅.
Proof.
  apply search_parse_no_separator.
  intros (x & y & Hxy). unfold cut_at in Hxy.
  assert (str_split1 (u " - ") (u ("No matching packages" ++ LF ++ "found-at-all"))
          = [u ("No matching packages" ++ LF ++ "found-at-all")]) as Hs
    by (vm_compute; reflexivity).
  destruct (str_split1_cases (u " - ")
              (u ("No matching packages" ++ LF ++ "found-at-all")))
    as [[_ Hno] | (p & q & Hpq & _)].
  - apply Hno. by exists x, y.
  - rewrite Hs in Hpq. discriminate.
Defined.

(** ** The flag list over time *)

(** X13.  Flags are never taken out of the class-level list nor moved: from
    a reachable world on, whatever is constructed or called, the list of any
    later world starts with the list as it is now. *)
Theorem flags_never_shrink to_text os_path_expandvars os_path_expanduser st st' :
  reachable to_text os_path_expandvars os_path_expanduser st →
  rtc (step to_text os_path_expandvars os_path_expanduser) st st' →
  class_flags st `prefix_of` class_flags st' ∧
  reachable to_text os_path_expandvars os_path_expanduser st'.
Proof.
  intros Hreach Hsteps. split.
  - destruct (reachable_class_flags _ _ _ _ Hreach) as [Hsome _].
    by destruct (steps_class_flags _ _ _ _ _ Hsteps Hsome).
  - destruct Hreach as (environ & stat & popen & H0).
    exists environ, stat, popen. by etrans.
Qed.

Lemma flags_never_shrink_witness :
  class_flags (sample_world (Popen_exited 0 [] []))
    `prefix_of`
  class_flags (__init__ sample_expand sample_expand (u "/env") (Some (u "/c"))
                 (sample_world (Popen_exited 0 [] []))).2.
Proof.
  apply (flags_never_shrink sample_to_text sample_expand sample_expand).
  - exists ∅, sample_stat, (sample_popen (Popen_exited 0 [] [])). apply rtc_refl.
  - eapply rtc_l; [apply (step_init _ _ _ (u "/env") (Some (u "/c")))|].
    apply rtc_refl.
Defined.
